(** * Kernel-time aggregation of [libtorch_demo/qwen3_infer.cpp]

    A shallow embedding of [format_shape], [aggregate_kernel_stats] and
    [print_kernel_stats], and the properties of the profiler report that
    follow from them.

    Numbers.  Timestamps are taken as whole microseconds, as in the data
    model of the spec, and the C++ code keeps every duration in a [double].
    Whole numbers below
    2^53 and their sums and differences are exact in a [double], so the
    durations are embedded as [Z] with exact arithmetic; rounding of very
    large sums is outside this model.  [calls] is an [int64_t] that is only
    ever incremented by one per closed range, it is embedded as [Z] too. *)

From Stdlib Require Import ZArith Ascii QArith.QArith_base.
From stdpp Require Import gmap strings list fin_maps sorting pretty.

Local Open Scope Z_scope.

(** ** Data model *)

(** [torch::autograd::profiler::EventKind]. *)
Inductive EventKind : Type :=
  | Mark
  | PushRange
  | PopRange
  | MemoryAlloc.

(** Modelled from the spec: [torch::autograd::profiler::LegacyEvent] is a
    libtorch type whose declaration is not part of the repository.  The
    record keeps what [aggregate_kernel_stats] reads from an event: its
    kind, its name, its CPU timestamp (whole microseconds) and the shapes
    of its inputs. *)
Record LegacyEvent : Type := mkEvent {
  kind : EventKind;
  name : string;
  timestamp_us : Z;
  shapes : list (list Z)
}.

(** Modelled from the spec: [start.cpuElapsedUs(e)] is the time from
    [start] to [e], "exit.timestamp_us - enter.timestamp_us". *)
Definition cpuElapsedUs (start e : LegacyEvent) : Z :=
  timestamp_us e - timestamp_us start.

Record KernelStat : Type := mkStat {
  total_us : Z;
  self_us : Z;
  max_us : Z;
  calls : Z;
  sample_shape : string
}.

(** The value-initialised [KernelStat] that [stats[kernel_name]] inserts
    for a name that is not in the map yet. *)
Definition KernelStat_init : KernelStat :=
  {| total_us := 0; self_us := 0; max_us := 0; calls := 0;
     sample_shape := "" |}.

(** The local struct [ActiveRange] of [aggregate_kernel_stats]. *)
Record ActiveRange : Type := mkActive {
  start : LegacyEvent;
  child_time_us : Z
}.

#[global] Instance EventKind_eq_dec : EqDecision EventKind.
Proof. solve_decision. Defined.

(** [std::max(a, b)]: [(a < b) ? b : a]. *)
Definition std_max (a b : Z) : Z := if a <? b then b else a.

(** [s.empty()] on a [std::string]. *)
Definition string_empty (s : string) : bool :=
  match s with
  | EmptyString => true
  | String _ _ => false
  end.

(** ** [format_shape] *)

(** The loop over [dims], started at index [i]. *)
Fixpoint format_dims (i : nat) (dims : list Z) : string :=
  match dims with
  | [] => ""
  | d :: rest =>
      (if decide (i ≠ 0%nat) then "x" else "") +:+ pretty d
        +:+ format_dims (S i) rest
  end.

Definition format_shape (shapes : list (list Z)) : string :=
  match shapes with
  | [] => ""
  | [] :: _ => ""
  | dims :: _ => "[" +:+ format_dims 0 dims +:+ "]"
  end.

(** ** [aggregate_kernel_stats] *)

(** [stack.back().child_time_us += inclusive_us], guarded by
    [!stack.empty()].  The head of the list is the back of the vector. *)
Definition add_child_time (inclusive_us : Z) (stack : list ActiveRange)
  : list ActiveRange :=
  match stack with
  | [] => []
  | back :: below =>
      {| start := start back;
         child_time_us := child_time_us back + inclusive_us |} :: below
  end.

(** The body of the inner loop, for one [event], on the stack of open
    ranges and the statistics map. *)
Definition process_event
    (st : list ActiveRange * gmap string KernelStat) (event : LegacyEvent)
  : list ActiveRange * gmap string KernelStat :=
  let '(stack, stats) := st in
  match kind event with
  | PushRange => ({| start := event; child_time_us := 0 |} :: stack, stats)
  | PopRange =>
      match stack with
      | [] => (stack, stats)
      | active :: stack =>
          let inclusive_us := cpuElapsedUs (start active) event in
          let inclusive_us := if inclusive_us <? 0 then 0 else inclusive_us in
          let exclusive_us := inclusive_us - child_time_us active in
          let exclusive_us := if exclusive_us <? 0 then 0 else exclusive_us in
          let kernel_name := name (start active) in
          let stat := default KernelStat_init (stats !! kernel_name) in
          let stat :=
            {| calls := calls stat + 1;
               total_us := total_us stat + inclusive_us;
               self_us := self_us stat + exclusive_us;
               max_us := std_max (max_us stat) inclusive_us;
               sample_shape :=
                 if string_empty (sample_shape stat)
                 then format_shape (shapes (start active))
                 else sample_shape stat |} in
          (add_child_time inclusive_us stack, <[kernel_name := stat]> stats)
      end
  | _ => (stack, stats)
  end.

(** One iteration of the outer loop: a fresh stack, every event of the
    thread in order; what is left on the stack is discarded. *)
Definition aggregate_thread_events
    (stats : gmap string KernelStat) (thread_events : list LegacyEvent)
  : gmap string KernelStat :=
  (foldl process_event ([], stats) thread_events).2.

Definition aggregate_kernel_stats
    (event_lists : list (list LegacyEvent)) (stats : gmap string KernelStat)
  : gmap string KernelStat :=
  foldl aggregate_thread_events stats event_lists.

(** ** The two stages of the loop body

    The spec describes the loop body as an interval resolver that emits one
    resolved interval per closed range, followed by an aggregator that
    folds the intervals into the map.  The definitions below follow that
    description; [process_event_stages] relates them to [process_event]. *)

Record ResolvedInterval : Type := mkInterval {
  interval_name : string;
  interval_shape : string;
  inclusive_us : Z;
  exclusive_us : Z
}.

(** Closing [active] at the PopRange [event]. *)
Definition close_range (active : ActiveRange) (event : LegacyEvent)
  : ResolvedInterval :=
  let inclusive := Z.max 0 (timestamp_us event - timestamp_us (start active)) in
  {| interval_name := name (start active);
     interval_shape := format_shape (shapes (start active));
     inclusive_us := inclusive;
     exclusive_us := Z.max 0 (inclusive - child_time_us active) |}.

(** The resolver's step: the next stack and the interval emitted, if any. *)
Definition resolve_event (stack : list ActiveRange) (event : LegacyEvent)
  : list ActiveRange * option ResolvedInterval :=
  match kind event with
  | PushRange => ({| start := event; child_time_us := 0 |} :: stack, None)
  | PopRange =>
      match stack with
      | [] => ([], None)
      | active :: below =>
          let r := close_range active event in
          (add_child_time (inclusive_us r) below, Some r)
      end
  | _ => (stack, None)
  end.

(** The stack after a run of events. *)
Definition stack_after (stack : list ActiveRange) (events : list LegacyEvent)
  : list ActiveRange :=
  foldl (λ s e, (resolve_event s e).1) stack events.

(** The intervals emitted by a run of events, in the order of emission. *)
Fixpoint resolve_from (stack : list ActiveRange) (events : list LegacyEvent)
  : list ResolvedInterval :=
  match events with
  | [] => []
  | e :: rest =>
      let '(stack', emitted) := resolve_event stack e in
      match emitted with
      | Some r => r :: resolve_from stack' rest
      | None => resolve_from stack' rest
      end
  end.

(** The per-thread resolver: it starts from the empty stack. *)
Definition resolve_thread (thread_events : list LegacyEvent)
  : list ResolvedInterval :=
  resolve_from [] thread_events.

(** Every interval of every thread, thread after thread. *)
Definition resolve_all (event_lists : list (list LegacyEvent))
  : list ResolvedInterval :=
  concat (resolve_thread <$> event_lists).

(** Whether a range stays open to the end of [events], when [above] ranges
    opened after it are still open: no PopRange reaches it. *)
Fixpoint stays_open (above : nat) (events : list LegacyEvent) : bool :=
  match events with
  | [] => true
  | e :: rest =>
      match kind e with
      | PushRange => stays_open (S above) rest
      | PopRange =>
          match above with
          | O => false
          | S above' => stays_open above' rest
          end
      | _ => stays_open above rest
      end
  end.

(** The number of PushRange events of a stream. *)
Definition count_push (events : list LegacyEvent) : nat :=
  length (List.filter (λ e, bool_decide (kind e = PushRange)) events).

(** Every open range has gathered a child time that is not negative. *)
Definition child_times_nonneg (stack : list ActiveRange) : Prop :=
  Forall (λ f, 0 ≤ child_time_us f) stack.

(** The bounds on an entry of the map. *)
Definition stat_bounded (st : KernelStat) : Prop :=
  0 ≤ self_us st ≤ total_us st ∧ 0 ≤ max_us st ≤ total_us st ∧ 1 ≤ calls st.

(** The aggregator's step: fold one interval into the map. *)
Definition fold_interval
    (stats : gmap string KernelStat) (r : ResolvedInterval)
  : gmap string KernelStat :=
  let stat := default KernelStat_init (stats !! interval_name r) in
  <[interval_name r :=
      {| calls := calls stat + 1;
         total_us := total_us stat + inclusive_us r;
         self_us := self_us stat + exclusive_us r;
         max_us := Z.max (max_us stat) (inclusive_us r);
         sample_shape :=
           if string_empty (sample_shape stat)
           then interval_shape r
           else sample_shape stat |}]> stats.

Definition fold_intervals
    (stats : gmap string KernelStat) (rs : list ResolvedInterval)
  : gmap string KernelStat :=
  foldl fold_interval stats rs.

(** ** [print_kernel_stats] *)

(** What is written to [std::cout], line by line.  The fixed texts are kept
    as they are printed; a table row and the closing line keep the values
    that are printed rather than their digits. *)
Inductive Line : Type :=
  | Text (s : string)
  | Row (kernel : string) (ncalls : Z) (total self : Z) (avg : Q)
        (max : Z) (shape : string)
  | SelfTimeTotal (total_time : Z).

(** [std::string(n, c)]. *)
Fixpoint string_of_char (n : nat) (c : ascii) : string :=
  match n with
  | O => ""
  | S n' => String c (string_of_char n' c)
  end.

(** [std::left << std::setw(w) << s] and [std::right << std::setw(w) << s]. *)
Definition setw_left (w : nat) (s : string) : string :=
  s +:+ string_of_char (w - String.length s) " "%char.

Definition setw_right (w : nat) (s : string) : string :=
  string_of_char (w - String.length s) " "%char +:+ s.

(** The comparator given to [std::sort]. *)
Definition by_total_desc (lhs rhs : string * KernelStat) : bool :=
  total_us rhs.2 <? total_us lhs.2.

(** An element may stand before another when the comparator does not put
    the other first. *)
Definition may_precede (comp : string * KernelStat → string * KernelStat → bool)
    (x y : string * KernelStat) : Prop :=
  comp y x = false.

#[global] Instance may_precede_dec comp x y : Decision (may_precede comp x y).
Proof. unfold may_precede. apply _. Defined.

(** What [std::sort] guarantees of its result. *)
Definition sorted_by (comp : string * KernelStat → string * KernelStat → bool)
    (input output : list (string * KernelStat)) : Prop :=
  output ≡ₚ input ∧ StronglySorted (may_precede comp) output.

(** [std::sort]: the order of elements the comparator does not separate is
    left open by the standard; a merge sort is one admissible outcome. *)
Definition std_sort (comp : string * KernelStat → string * KernelStat → bool)
    (v : list (string * KernelStat)) : list (string * KernelStat) :=
  merge_sort (may_precede comp) v.

Definition print_row (entry : string * KernelStat) : Line :=
  let '(kernel, stat) := entry in
  let avg_us :=
    if 0 <? calls stat
    then Qdiv (inject_Z (total_us stat)) (inject_Z (calls stat))
    else inject_Z 0 in
  Row (String.substring 0 48 kernel) (calls stat) (total_us stat) (self_us stat)
      avg_us (max_us stat) (sample_shape stat).

(** The part of [print_kernel_stats] after the sort. *)
Definition print_ordered (ordered : list (string * KernelStat)) : list Line :=
  let total_time := foldl (λ acc entry, acc + self_us entry.2) 0 ordered in
  let limit := Nat.min 30 (length ordered) in
  [ Text "";
    Text "Kernel CPU time summary (top 30 by inclusive time)";
    Text (setw_left 48 "Kernel" +:+ setw_right 10 "Calls"
          +:+ setw_right 14 "Total(us)" +:+ setw_right 14 "Self(us)"
          +:+ setw_right 12 "Avg(us)" +:+ setw_right 12 "Max(us)"
          +:+ setw_right 16 "Shape");
    Text (string_of_char 126 "-"%char) ]
  ++ (print_row <$> take limit ordered)
  ++ [ Text (string_of_char 126 "-"%char);
       SelfTimeTotal total_time ].

(** The map is read in its iteration order, [map_to_list]. *)
Definition print_kernel_stats (stats : gmap string KernelStat) : list Line :=
  if decide (stats = ∅) then [ Text "No profiler events collected." ]
  else print_ordered (std_sort by_total_desc (map_to_list stats)).

(** The table rows of a report, and the kernel names in them. *)
Definition is_row (l : Line) : bool :=
  match l with
  | Row _ _ _ _ _ _ _ => true
  | _ => false
  end.

Definition data_rows (report : list Line) : list Line :=
  List.filter is_row report.

Definition row_kernel (l : Line) : option string :=
  match l with
  | Row kernel _ _ _ _ _ _ => Some kernel
  | _ => None
  end.

Definition row_kernels (report : list Line) : list string :=
  omap row_kernel report.

(** The value on the closing "Self time total" line of a report. *)
Definition self_time_total (report : list Line) : option Z :=
  match last report with
  | Some (SelfTimeTotal t) => Some t
  | _ => None
  end.

(** The numbers of an entry: everything but its sample shape. *)
Definition stat_counts (st : KernelStat) : Z * Z * Z * Z :=
  (calls st, total_us st, self_us st, max_us st).

(** Two maps have the same names and, name by name, the same numbers. *)
Definition same_counts (m1 m2 : gmap string KernelStat) : Prop :=
  ∀ kernel, stat_counts <$> (m1 !! kernel) = stat_counts <$> (m2 !! kernel).

(** The shape of the first interval of [kernel] among [rs]. *)
Fixpoint first_shape (kernel : string) (rs : list ResolvedInterval)
  : option string :=
  match rs with
  | [] => None
  | r :: rest =>
      if decide (interval_name r = kernel) then Some (interval_shape r)
      else first_shape kernel rest
  end.

(** The first shape that is not empty among the intervals of [kernel] in
    [rs]; the empty string when there is none. *)
Fixpoint first_nonempty_shape (kernel : string) (rs : list ResolvedInterval)
  : string :=
  match rs with
  | [] => ""
  | r :: rest =>
      if decide (interval_name r = kernel)
      then if string_empty (interval_shape r)
           then first_nonempty_shape kernel rest
           else interval_shape r
      else first_nonempty_shape kernel rest
  end.

(** The sum of [self_us] over a sequence of entries. *)
Definition sum_self_us (entries : list (string * KernelStat)) : Z :=
  foldr (λ entry acc, self_us entry.2 + acc) 0 entries.

(** The Total(us) value of a table row. *)
Definition row_total (l : Line) : option Z :=
  match l with
  | Row _ _ total _ _ _ _ => Some total
  | _ => None
  end.

(** Forty kernels "kernel0" ... "kernel39"; kernel i was called once and
    took i+1 microseconds, all of it self time. *)
Definition forty_kernels : gmap string KernelStat :=
  list_to_map
    ((λ i : nat,
        ("kernel" +:+ pretty i,
         mkStat (Z.of_nat i + 1) (Z.of_nat i + 1) (Z.of_nat i + 1) 1 ""))
       <$> seq 0 40).

(** ** What the map holds after a run *)

(** The intervals of [kernel] among [rs], in their order. *)
Definition intervals_of (kernel : string) (rs : list ResolvedInterval)
  : list ResolvedInterval :=
  List.filter (λ r, bool_decide (interval_name r = kernel)) rs.

Definition sum_inclusive (rs : list ResolvedInterval) : Z :=
  foldr (λ r acc, inclusive_us r + acc) 0 rs.

Definition sum_exclusive (rs : list ResolvedInterval) : Z :=
  foldr (λ r acc, exclusive_us r + acc) 0 rs.

(** The largest inclusive time among [rs] and [floor]. *)
Definition max_inclusive (floor : Z) (rs : list ResolvedInterval) : Z :=
  foldr (λ r acc, Z.max (inclusive_us r) acc) floor rs.

(** The entry of [kernel] once the intervals [rs] are folded into a map in
    which its entry was [old]. *)
Definition entry_after (old : KernelStat) (kernel : string)
    (rs : list ResolvedInterval) : KernelStat :=
  {| calls := calls old + Z.of_nat (length (intervals_of kernel rs));
     total_us := total_us old + sum_inclusive (intervals_of kernel rs);
     self_us := self_us old + sum_exclusive (intervals_of kernel rs);
     max_us := max_inclusive (max_us old) (intervals_of kernel rs);
     sample_shape :=
       if string_empty (sample_shape old)
       then first_nonempty_shape kernel rs
       else sample_shape old |}.

(** An event that opens or closes a range. *)
Definition is_range_event (e : LegacyEvent) : bool :=
  match kind e with
  | PushRange | PopRange => true
  | _ => false
  end.

(** Two events that the loop cannot tell apart: the same kind and the same
    timestamp, and the same event altogether when they open a range. *)
Definition same_for_ranges (e e' : LegacyEvent) : Prop :=
  kind e = kind e' ∧ timestamp_us e = timestamp_us e'
  ∧ (kind e = PushRange → e = e').

(** ** Streams with timestamps in order *)


(** At time [now], every open range has gathered a child time that is not
    negative and that ended before the range above it was opened (before
    [now], for the range on top). *)
Fixpoint stack_timed (now : Z) (stack : list ActiveRange) : Prop :=
  match stack with
  | [] => True
  | f :: below =>
      0 ≤ child_time_us f
      ∧ child_time_us f + timestamp_us (start f) ≤ now
      ∧ stack_timed (timestamp_us (start f)) below
  end.





(** ** The end of [main] *)

(** What [main] prints about the profile once the tokens are written: the
    report of the aggregated events, unless the profiler handed over no
    event list at all. *)
Definition report_profile (profiler_events : list (list LegacyEvent))
  : list Line :=
  match profiler_events with
  | [] => [ Text "Profiler did not capture any events." ]
  | _ :: _ => print_kernel_stats (aggregate_kernel_stats profiler_events ∅)
  end.

(** ** Token files: [load_tokens] and [write_tokens] *)

(** A call returns a value or throws a [std::runtime_error]. *)
Inductive outcome (A : Type) : Type :=
  | Returns (a : A)
  | Throws (what : string).
Arguments Returns {A} a.
Arguments Throws {A} what.

Definition newline : ascii := "010"%char.

Definition INT64_MIN : Z := - 2 ^ 63.
Definition INT64_MAX : Z := 2 ^ 63 - 1.

Definition in_int64 (value : Z) : Prop := INT64_MIN ≤ value ≤ INT64_MAX.

(** The lines that the [std::getline] loop reads from a stream: the text
    between line feeds; a last line needs no line feed, and nothing is read
    after a final line feed. *)
Fixpoint getlines (content : string) : list string :=
  match content with
  | "" => []
  | String c rest =>
      if decide (c = newline) then "" :: getlines rest
      else match getlines rest with
           | [] => [String c ""]
           | line :: lines => String c line :: lines
           end
  end.

(** The value of a decimal digit. *)
Definition digit_value (c : ascii) : option Z :=
  let n := Z.of_N (N_of_ascii c) in
  if (48 <=? n) && (n <=? 57) then Some (n - 48) else None.

Definition starts_with_digit (s : string) : bool :=
  match s with
  | String c _ => bool_decide (is_Some (digit_value c))
  | "" => false
  end.

(** [operator>>] first skips white space. *)
Fixpoint skip_space (s : string) : string :=
  match s with
  | String c rest => if Ascii.is_space c then skip_space rest else s
  | "" => ""
  end.

(** Then it takes one sign, if there is one. *)
Definition read_sign (s : string) : bool * string :=
  match s with
  | String c rest =>
      if decide (c = "-"%char) then (true, rest)
      else if decide (c = "+"%char) then (false, rest)
      else (false, s)
  | "" => (false, "")
  end.

(** Then it takes digits as long as there are digits. *)
Fixpoint read_digits (acc : Z) (s : string) : Z * string :=
  match s with
  | String c rest =>
      match digit_value c with
      | Some d => read_digits (10 * acc + d) rest
      | None => (acc, s)
      end
  | "" => (acc, "")
  end.

(** [stream >> value] for an [int64_t]: the value read and the rest of the
    stream; [None] when the extraction fails (end of stream, no digit, or a
    number that does not fit). *)
Definition extract_int64 (stream : string) : option (Z * string) :=
  let '(negative, s) := read_sign (skip_space stream) in
  if starts_with_digit s then
    let '(magnitude, rest) := read_digits 0 s in
    let value := if negative then - magnitude else magnitude in
    if (INT64_MIN <=? value) && (value <=? INT64_MAX)
    then Some (value, rest)
    else None
  else None.

(** [while (line_stream >> value) tokens.push_back(value)], with a bound on
    the number of rounds. *)
Fixpoint read_values (fuel : nat) (line_stream : string) : list Z :=
  match fuel with
  | O => []
  | S fuel' =>
      match extract_int64 line_stream with
      | Some (value, rest) => value :: read_values fuel' rest
      | None => []
      end
  end.

(** Every round takes at least one character, so the length of the line
    is a bound. *)
Definition line_values (line : string) : list Z :=
  read_values (S (String.length line)) line.

(** [load_tokens]; [files] holds the contents of the files that can be
    opened. *)
Definition load_tokens (files : gmap string string) (path : string)
  : outcome (list Z) :=
  match files !! path with
  | None => Throws ("Failed to open tokens file: " +:+ path)
  | Some content =>
      match concat (line_values <$> getlines content) with
      | [] => Throws ("Token file is empty: " +:+ path)
      | tokens => Returns tokens
      end
  end.

(** The loop of [write_tokens]. *)
Fixpoint write_loop (tokens : list Z) : string :=
  match tokens with
  | [] => ""
  | t :: rest =>
      pretty t
      +:+ (match rest with [] => "" | _ :: _ => " " end)
      +:+ write_loop rest
  end.

(** [write_tokens]; [opened] tells whether the output file can be opened,
    and the result is the file system with the file written. *)
Definition write_tokens (tokens : list Z) (path : string)
    (files : gmap string string) (opened : bool)
  : outcome (gmap string string) :=
  if opened
  then Returns (<[path := write_loop tokens +:+ String newline ""]> files)
  else Throws ("Failed to open output file: " +:+ path).

(** A text without a line feed. *)
Fixpoint no_newline (s : string) : Prop :=
  match s with
  | "" => True
  | String c rest => c ≠ newline ∧ no_newline rest
  end.

(** A text made of digits and minus signs. *)
Fixpoint numeric (s : string) : Prop :=
  match s with
  | "" => True
  | String c rest => (is_Some (digit_value c) ∨ c = "-"%char) ∧ numeric rest
  end.

(** A text that starts with a character that cannot start a number and is
    not white space either. *)
Definition starts_with_junk (s : string) : Prop :=
  match s with
  | "" => False
  | String c _ =>
      Ascii.is_space c = false ∧ digit_value c = None
      ∧ c ≠ "-"%char ∧ c ≠ "+"%char
  end.

(** A token file of several lines, each written like [write_tokens] writes
    its one line. *)
Definition write_lines (lines : list (list Z)) : string :=
  foldr (λ tokens rest, write_loop tokens +:+ String newline rest) "" lines.

(** A text that does not go on with a digit or a minus sign. *)
Definition starts_non_numeric (s : string) : Prop :=
  match s with
  | "" => True
  | String c _ => digit_value c = None ∧ c ≠ "-"%char
  end.

(** ** [main] *)

(** The generation loop of [main].  [module] stands for one round of
    [module.forward] on all the tokens so far and the argmax over the last
    position: it returns the next token or throws a [c10::Error].  The loop
    runs [steps] rounds at most, [steps] being [max_new_tokens] when that
    is positive and 0 otherwise. *)
Fixpoint generate (module : list Z → outcome Z) (steps : nat) (eos_token : Z)
    (prompt_tokens : list Z) : outcome (list Z) :=
  match steps with
  | O => Returns prompt_tokens
  | S steps' =>
      match module prompt_tokens with
      | Throws what => Throws what
      | Returns next_token =>
          let prompt_tokens := prompt_tokens ++ [next_token] in
          if (0 <=? eos_token) && (next_token =? eos_token)
          then Returns prompt_tokens
          else generate module steps' eos_token prompt_tokens
      end
  end.

Definition INT_MIN : Z := - 2 ^ 31.
Definition INT_MAX : Z := 2 ^ 31 - 1.

(** [std::stoll(s)]: white space, a sign and digits as for [>>], whatever
    follows the digits being ignored; [None] when it throws
    ([std::invalid_argument] without a digit, [std::out_of_range] when the
    number does not fit). *)
Definition stoll (s : string) : option Z :=
  match extract_int64 s with
  | Some (value, _) => Some value
  | None => None
  end.

(** [std::stoi(s)]: the same, for an [int]. *)
Definition stoi (s : string) : option Z :=
  match extract_int64 s with
  | Some (value, _) =>
      if (INT_MIN <=? value) && (value <=? INT_MAX) then Some value else None
  | None => None
  end.

(** What [main] runs in: the files that can be read, the paths at which a
    file can be created, what [torch::jit::load] makes of a path, and the
    event lists that the profiler hands over at the end of the generation. *)
Record World : Type := mkWorld {
  files : gmap string string;
  can_create : string → bool;
  jit_load : string → outcome (list Z → outcome Z);
  profiler_events : list (list LegacyEvent)
}.

(** How a run of [main] ends: by [std::terminate], when an exception leaves
    [main], or with an exit code, the lines written to [std::cout] and to
    [std::cerr], and the files. *)
Inductive Run : Type :=
  | Terminated
  | Exited (code : Z) (cout : list Line) (cerr : list string)
           (files_after : gmap string string).

Definition usage (program : string) : string :=
  "Usage: " +:+ program
  +:+ " <torchscript_model> <input_tokens.txt> <output_tokens.txt> [max_new_tokens] [eos_token]".

Definition main (argv : list string) (world : World) : Run :=
  let argc := length argv in
  if decide (argc < 4)%nat
  then Exited 1 [] [ usage (default "" (argv !! 0%nat)) ] (files world)
  else
    let model_path := default "" (argv !! 1%nat) in
    let input_tokens_path := default "" (argv !! 2%nat) in
    let output_tokens_path := default "" (argv !! 3%nat) in
    match (if decide (5 ≤ argc)%nat
           then stoi (default "" (argv !! 4%nat)) else Some 64) with
    | None => Terminated
    | Some max_new_tokens =>
    match (if decide (6 ≤ argc)%nat
           then stoll (default "" (argv !! 5%nat)) else Some (-1)) with
    | None => Terminated
    | Some eos_token =>
    match load_tokens (files world) input_tokens_path with
    | Throws what => Exited 3 [] [ "Error: " +:+ what ] (files world)
    | Returns prompt_tokens =>
    match jit_load world model_path with
    | Throws what => Exited 2 [] [ "libtorch error: " +:+ what ] (files world)
    | Returns module =>
    match generate module (Z.to_nat max_new_tokens) eos_token prompt_tokens with
    | Throws what => Exited 2 [] [ "libtorch error: " +:+ what ] (files world)
    | Returns prompt_tokens =>
    match write_tokens prompt_tokens output_tokens_path (files world)
            (can_create world output_tokens_path) with
    | Throws what => Exited 3 [] [ "Error: " +:+ what ] (files world)
    | Returns files_after =>
        Exited 0
          (Text ("Generated " +:+ pretty (length prompt_tokens) +:+ " tokens.")
           :: report_profile (profiler_events world))
          [] files_after
    end end end end end end.

(** A world to run [main] in: one input file with the tokens 5 and 6, a
    module that always answers 7, and no profiler events. *)
Definition demo_world : World :=
  {| files := <["in.txt" := "5 6"]> ∅;
     can_create := λ _, true;
     jit_load := λ _, Returns (λ _, Returns 7);
     profiler_events := [] |}.

(** * Properties *)

(** ** The loop body is the resolver followed by the aggregator *)

Lemma std_max_max a b : std_max a b = Z.max a b.
Proof. unfold std_max. destruct (Z.ltb_spec a b); lia. Qed.

Lemma clamp_max x : (if x <? 0 then 0 else x) = Z.max 0 x.
Proof. destruct (Z.ltb_spec x 0); lia. Qed.

Lemma process_event_stages stack stats e :
  process_event (stack, stats) e =
  ((resolve_event stack e).1,
   match (resolve_event stack e).2 with
   | Some r => fold_interval stats r
   | None => stats
   end).
Proof.
  unfold process_event, resolve_event.
  destruct (kind e); try reflexivity.
  destruct stack as [|active below]; [reflexivity|].
  cbn [fst snd]. unfold fold_interval, close_range, cpuElapsedUs.
  cbn [interval_name interval_shape inclusive_us exclusive_us].
  rewrite !clamp_max, std_max_max. reflexivity.
Qed.

Lemma foldl_process_event events : ∀ stack stats,
  foldl process_event (stack, stats) events =
  (stack_after stack events, fold_intervals stats (resolve_from stack events)).
Proof.
  induction events as [|e rest IH]; intros stack stats; [reflexivity|].
  cbn [foldl]. rewrite process_event_stages, IH.
  unfold stack_after. cbn [foldl resolve_from].
  destruct (resolve_event stack e) as [stack' [r|]]; reflexivity.
Qed.

Lemma aggregate_thread_events_stages stats thread_events :
  aggregate_thread_events stats thread_events =
  fold_intervals stats (resolve_thread thread_events).
Proof.
  unfold aggregate_thread_events. by rewrite foldl_process_event.
Qed.

Lemma aggregate_kernel_stats_stages event_lists : ∀ stats,
  aggregate_kernel_stats event_lists stats =
  fold_intervals stats (resolve_all event_lists).
Proof.
  unfold aggregate_kernel_stats, resolve_all, fold_intervals.
  induction event_lists as [|evs rest IH]; intros stats; [reflexivity|].
  cbn [foldl fmap list_fmap concat]. rewrite foldl_app, IH.
  by rewrite aggregate_thread_events_stages.
Qed.

Lemma stack_after_app stack evs1 evs2 :
  stack_after stack (evs1 ++ evs2) = stack_after (stack_after stack evs1) evs2.
Proof. unfold stack_after. apply foldl_app. Qed.

Lemma resolve_from_app evs1 : ∀ stack evs2,
  resolve_from stack (evs1 ++ evs2) =
  resolve_from stack evs1 ++ resolve_from (stack_after stack evs1) evs2.
Proof.
  induction evs1 as [|e rest IH]; intros stack evs2; [reflexivity|].
  cbn [app resolve_from]. unfold stack_after. cbn [foldl].
  destruct (resolve_event stack e) as [stack' [r|]]; cbn [fst];
    rewrite IH; reflexivity.
Qed.

Lemma stack_after_process_event stats events :
  (foldl process_event ([], stats) events).1 = stack_after [] events.
Proof. by rewrite foldl_process_event. Qed.

(** ** Nested ranges *)

(** C1: for one thread with the events Enter(A,0), Enter(B,10), Exit(B,30),
    Exit(A,50), whatever the names and shapes are, the resolver emits
    exactly two intervals, B with inclusive 20 and exclusive 20 and then A
    with inclusive 50 and exclusive 30; when B closes its 20 us are added to
    the child time of A, and the loop of [aggregate_kernel_stats] folds
    exactly these two intervals into the map. *)
Theorem nested_pair_intervals (a b a' b' : string) (sa sb sa' sb' : list (list Z))
    (stats : gmap string KernelStat) :
  let events :=
    [ mkEvent PushRange a 0 sa; mkEvent PushRange b 10 sb;
      mkEvent PopRange b' 30 sb'; mkEvent PopRange a' 50 sa' ] in
  let rB := mkInterval b (format_shape sb) 20 20 in
  let rA := mkInterval a (format_shape sa) 50 30 in
  resolve_thread events = [ rB; rA ]
  ∧ stack_after [] (take 3 events) = [ mkActive (mkEvent PushRange a 0 sa) 20 ]
  ∧ aggregate_thread_events stats events
    = fold_interval (fold_interval stats rB) rA.
Proof.
  intros events rB rA. split; [reflexivity|]. split; [reflexivity|].
  by rewrite aggregate_thread_events_stages.
Qed.

(** ** Exits without an open range *)

(** C7: a PopRange event that arrives while the stack is empty is dropped:
    the loop body leaves the stack and the map as they are, and the rest of
    the thread is processed as if the event were not there, so the
    intervals emitted and the resulting map are those of the stream without
    it.  With nothing before and after it (the stream Exit(X,5) alone) no
    interval is emitted. *)
Theorem unmatched_exit_dropped
    (stats : gmap string KernelStat) (pre post : list LegacyEvent)
    (e : LegacyEvent)
    (Hkind : kind e = PopRange)
    (Hempty : (foldl process_event ([], stats) pre).1 = []) :
  process_event ([], stats) e = ([], stats)
  ∧ resolve_event [] e = ([], None)
  ∧ resolve_thread (pre ++ e :: post) = resolve_thread (pre ++ post)
  ∧ aggregate_thread_events stats (pre ++ e :: post)
    = aggregate_thread_events stats (pre ++ post).
Proof.
  rewrite stack_after_process_event in Hempty.
  assert (Hstep : resolve_event [] e = ([], None)).
  { unfold resolve_event. by rewrite Hkind. }
  assert (Hres : resolve_thread (pre ++ e :: post) = resolve_thread (pre ++ post)).
  { unfold resolve_thread. rewrite !resolve_from_app, Hempty.
    cbn [resolve_from]. by rewrite Hstep. }
  split_and!; try done.
  - unfold process_event. by rewrite Hkind.
  - by rewrite !aggregate_thread_events_stages, Hres.
Qed.

Lemma unmatched_exit_dropped_witness :
  resolve_thread [ mkEvent PopRange "X" 5 [] ] = []
  ∧ aggregate_thread_events ∅ [ mkEvent PopRange "X" 5 [] ] = ∅.
Proof.
  destruct (unmatched_exit_dropped ∅ [] [] (mkEvent PopRange "X" 5 [])
              eq_refl eq_refl) as (_ & _ & Hres & Hagg).
  split; [exact Hres | exact Hagg].
Defined.

(** ** The empty report *)

(** C9: when the aggregated map is empty, as it is after aggregating any
    number of threads that have no events, [print_kernel_stats] prints the
    single line "No profiler events collected." and nothing else: no title,
    no table header, no row and no total line. *)
Theorem empty_map_report (n : nat) :
  aggregate_kernel_stats (replicate n []) ∅ = ∅
  ∧ print_kernel_stats (aggregate_kernel_stats (replicate n []) ∅)
    = [ Text "No profiler events collected." ].
Proof.
  assert (H : aggregate_kernel_stats (replicate n []) ∅ = ∅).
  { unfold aggregate_kernel_stats. induction n as [|n IH]; [reflexivity|].
    cbn [replicate foldl]. exact IH. }
  rewrite H. split; [reflexivity|].
  unfold print_kernel_stats. by rewrite decide_True.
Qed.

(** ** Ranges left open *)

Lemma add_child_time_app incl a above (lo : list ActiveRange) :
  add_child_time incl ((a :: above) ++ lo) = add_child_time incl (a :: above) ++ lo.
Proof. reflexivity. Qed.

Lemma add_child_time_length incl stack :
  length (add_child_time incl stack) = length stack.
Proof. by destruct stack. Qed.

(** What lies under a range that stays open has no part in the intervals
    emitted. *)
Lemma resolve_from_below_irrelevant events : ∀ above lo lo',
  stays_open (length above) events = true →
  resolve_from (above ++ lo) events = resolve_from (above ++ lo') events.
Proof.
  induction events as [|e rest IH]; intros above lo lo' Hopen; [reflexivity|].
  cbn [resolve_from stays_open] in *. unfold resolve_event.
  destruct (kind e).
  - by apply IH.
  - apply (IH (_ :: above)), Hopen.
  - destruct above as [|a above]; [discriminate|].
    cbn [app length] in *. f_equal.
    destruct above as [|a' above].
    + apply (IH []), Hopen.
    + rewrite !add_child_time_app. apply IH.
      by rewrite add_child_time_length.
  - by apply IH.
Qed.

(** A range that stays open is still on the stack at the end, with the
    ranges under it untouched. *)
Lemma stack_after_stays_open events : ∀ above f below,
  stays_open (length above) events = true →
  ∃ above' child,
    stack_after (above ++ f :: below) events
    = above' ++ mkActive (start f) child :: below.
Proof.
  induction events as [|e rest IH]; intros above f below Hopen.
  { exists above, (child_time_us f). by destruct f. }
  unfold stack_after in *. cbn [foldl stays_open] in *. unfold resolve_event.
  destruct (kind e); cbn [fst].
  - by apply IH.
  - apply (IH (_ :: above)), Hopen.
  - destruct above as [|a above]; [discriminate|].
    cbn [app length fst] in *.
    destruct above as [|a' above].
    + apply (IH [] (mkActive (start f) _)), Hopen.
    + rewrite add_child_time_app. apply IH.
      by rewrite add_child_time_length.
  - by apply IH.
Qed.

Lemma resolve_event_push stack e :
  kind e = PushRange → resolve_event stack e = (mkActive e 0 :: stack, None).
Proof. intros Hk. unfold resolve_event. by rewrite Hk. Qed.

Lemma resolve_event_pop_nil e :
  kind e = PopRange → resolve_event [] e = ([], None).
Proof. intros Hk. unfold resolve_event. by rewrite Hk. Qed.

Lemma resolve_event_pop active below e :
  kind e = PopRange →
  resolve_event (active :: below) e
  = (add_child_time (inclusive_us (close_range active e)) below,
     Some (close_range active e)).
Proof. intros Hk. unfold resolve_event. by rewrite Hk. Qed.

Lemma resolve_event_skip stack e :
  kind e ≠ PushRange → kind e ≠ PopRange → resolve_event stack e = (stack, None).
Proof. intros H1 H2. unfold resolve_event. by destruct (kind e). Qed.

Lemma resolve_count events : ∀ stack,
  (length (resolve_from stack events) + length (stack_after stack events)
   = length stack + count_push events)%nat.
Proof.
  unfold stack_after, count_push.
  induction events as [|e rest IH]; intros stack;
    cbn [resolve_from foldl List.filter]; [cbn; lia|].
  destruct (decide (kind e = PushRange)) as [Hk|Hpush].
  { rewrite resolve_event_push, bool_decide_true by done.
    cbn [fst length]. rewrite IH. cbn [length]. lia. }
  rewrite bool_decide_false by done.
  destruct (decide (kind e = PopRange)) as [Hk|Hpop].
  - destruct stack as [|active below].
    + rewrite resolve_event_pop_nil by done. apply IH.
    + rewrite resolve_event_pop by done. cbn [fst length].
      specialize (IH (add_child_time (inclusive_us (close_range active e)) below)).
      rewrite add_child_time_length in IH. lia.
  - rewrite resolve_event_skip by done. apply IH.
Qed.

(** C8: a PushRange event whose range is never closed (no later PopRange
    reaches it) emits no interval and adds nothing to the map: the
    intervals and the map of the thread are those of the stream without the
    event, and its range is still on the stack, above the ranges opened
    before it, when the stream ends.  In every stream each PushRange is
    either closed into one interval or left on the stack.  With nothing
    before and after it (the stream Enter(X,0) alone) no interval is
    emitted. *)
Theorem unmatched_enter_dropped
    (stats : gmap string KernelStat) (pre post : list LegacyEvent)
    (e : LegacyEvent)
    (Hkind : kind e = PushRange)
    (Hopen : stays_open 0 post = true) :
  resolve_thread (pre ++ e :: post) = resolve_thread (pre ++ post)
  ∧ aggregate_thread_events stats (pre ++ e :: post)
    = aggregate_thread_events stats (pre ++ post)
  ∧ (∃ above child,
       (foldl process_event ([], stats) (pre ++ e :: post)).1
       = above ++ mkActive e child
           :: (foldl process_event ([], stats) pre).1)
  ∧ (length (resolve_thread (pre ++ e :: post))
     + length (foldl process_event ([], stats) (pre ++ e :: post)).1
     = count_push (pre ++ e :: post))%nat.
Proof.
  assert (Hstep : ∀ stack, resolve_event stack e = (mkActive e 0 :: stack, None)).
  { intros stack. unfold resolve_event. by rewrite Hkind. }
  assert (Hres : resolve_thread (pre ++ e :: post) = resolve_thread (pre ++ post)).
  { unfold resolve_thread. rewrite !resolve_from_app. f_equal.
    cbn [resolve_from]. rewrite Hstep.
    apply (resolve_from_below_irrelevant post [] (_ :: _) _ Hopen). }
  split_and!.
  - exact Hres.
  - by rewrite !aggregate_thread_events_stages, Hres.
  - rewrite !stack_after_process_event, stack_after_app.
    unfold stack_after at 1. cbn [foldl]. rewrite Hstep. cbn [fst].
    apply (stack_after_stays_open post [] (mkActive e 0) _ Hopen).
  - rewrite stack_after_process_event. apply (resolve_count _ []).
Qed.

Lemma unmatched_enter_dropped_witness :
  resolve_thread [ mkEvent PushRange "X" 0 [] ] = []
  ∧ aggregate_thread_events ∅ [ mkEvent PushRange "X" 0 [] ] = ∅.
Proof.
  destruct (unmatched_enter_dropped ∅ [] [] (mkEvent PushRange "X" 0 [])
              eq_refl eq_refl) as (Hres & Hagg & _).
  split; [exact Hres | exact Hagg].
Defined.

(** ** Durations are clamped *)

Lemma add_child_time_nonneg incl stack :
  0 ≤ incl → child_times_nonneg stack →
  child_times_nonneg (add_child_time incl stack).
Proof.
  unfold child_times_nonneg. intros Hincl Hstack.
  destruct Hstack as [|back below Hback Hbelow]; cbn; constructor; cbn; [lia|done].
Qed.

Lemma close_range_inclusive_nonneg active e :
  0 ≤ inclusive_us (close_range active e).
Proof. cbn. lia. Qed.

Lemma close_range_bounds active e :
  0 ≤ child_time_us active →
  0 ≤ exclusive_us (close_range active e) ≤ inclusive_us (close_range active e).
Proof. cbn. lia. Qed.

Lemma resolve_event_nonneg stack e :
  child_times_nonneg stack → child_times_nonneg (resolve_event stack e).1.
Proof.
  intros Hstack. unfold resolve_event. destruct (kind e); cbn [fst]; try done.
  - constructor; [cbn; lia | done].
  - destruct Hstack as [|active below Hactive Hbelow]; [constructor|].
    cbn [fst]. apply add_child_time_nonneg; [apply close_range_inclusive_nonneg|done].
Qed.

Lemma stack_after_nonneg events : ∀ stack,
  child_times_nonneg stack → child_times_nonneg (stack_after stack events).
Proof.
  unfold stack_after.
  induction events as [|e rest IH]; intros stack Hstack; [done|].
  cbn [foldl]. by apply IH, resolve_event_nonneg.
Qed.

Lemma resolve_from_bounds events : ∀ stack,
  child_times_nonneg stack →
  Forall (λ r, 0 ≤ exclusive_us r ≤ inclusive_us r) (resolve_from stack events).
Proof.
  induction events as [|e rest IH]; intros stack Hstack; [constructor|].
  cbn [resolve_from].
  pose proof (resolve_event_nonneg stack e Hstack) as Hnext.
  destruct (resolve_event stack e) as [stack' [r|]] eqn:Hstep; cbn [fst] in Hnext;
    [|by apply IH].
  constructor; [|by apply IH].
  unfold resolve_event in Hstep. destruct (kind e); try discriminate.
  destruct Hstack as [|active below Hactive Hbelow]; [discriminate|].
  injection Hstep as _ <-. by apply close_range_bounds.
Qed.

Lemma resolve_thread_bounds events :
  Forall (λ r, 0 ≤ exclusive_us r ≤ inclusive_us r) (resolve_thread events).
Proof. apply resolve_from_bounds. constructor. Qed.

Lemma fold_intervals_snoc stats rs r :
  fold_intervals stats (rs ++ [r]) = fold_interval (fold_intervals stats rs) r.
Proof. unfold fold_intervals. by rewrite foldl_app. Qed.

(** C3: when a PopRange closes the open range [active] and its timestamp is
    earlier than that of the PushRange which opened it, the interval emitted
    has inclusive 0 and exclusive 0, and this is the interval the loop folds
    into the map; and no interval of any stream has a negative inclusive or
    exclusive time. *)
Theorem exit_before_enter_clamped
    (stats : gmap string KernelStat) (pre : list LegacyEvent)
    (e : LegacyEvent) (active : ActiveRange) (below : list ActiveRange)
    (Hkind : kind e = PopRange)
    (Hstack : (foldl process_event ([], stats) pre).1 = active :: below)
    (Hearlier : timestamp_us e < timestamp_us (start active)) :
  let r := mkInterval (name (start active))
                      (format_shape (shapes (start active))) 0 0 in
  resolve_thread (pre ++ [e]) = resolve_thread pre ++ [r]
  ∧ aggregate_thread_events stats (pre ++ [e])
    = fold_interval (aggregate_thread_events stats pre) r
  ∧ ∀ events,
      Forall (λ r, 0 ≤ inclusive_us r ∧ 0 ≤ exclusive_us r)
             (resolve_thread events).
Proof.
  intros r. rewrite stack_after_process_event in Hstack.
  assert (Hchild : 0 ≤ child_time_us active).
  { pose proof (stack_after_nonneg pre [] (Forall_nil_2 _)) as Hnn.
    rewrite Hstack in Hnn. by inversion Hnn. }
  assert (Hclose : close_range active e = r).
  { unfold close_range, r. f_equal; lia. }
  assert (Hres : resolve_thread (pre ++ [e]) = resolve_thread pre ++ [r]).
  { unfold resolve_thread. rewrite resolve_from_app, Hstack.
    cbn [resolve_from]. by rewrite resolve_event_pop, Hclose. }
  split_and!.
  - exact Hres.
  - by rewrite !aggregate_thread_events_stages, Hres, fold_intervals_snoc.
  - intros events. eapply Forall_impl; [apply resolve_thread_bounds|].
    cbn. intros; lia.
Qed.

Lemma exit_before_enter_clamped_witness :
  resolve_thread [ mkEvent PushRange "A" 10 []; mkEvent PopRange "A" 5 [] ]
  = [ mkInterval "A" "" 0 0 ].
Proof.
  destruct (exit_before_enter_clamped ∅ [ mkEvent PushRange "A" 10 [] ]
              (mkEvent PopRange "A" 5 [])
              (mkActive (mkEvent PushRange "A" 10 []) 0) []
              eq_refl eq_refl ltac:(simpl; lia)) as (Hres & _).
  exact Hres.
Defined.

(** ** Bounds on intervals and on entries *)

Lemma fold_interval_bounded stats r :
  0 ≤ exclusive_us r ≤ inclusive_us r →
  0 ≤ calls (default KernelStat_init (stats !! interval_name r)) →
  map_Forall (λ _ st, stat_bounded st) stats →
  map_Forall (λ _ st, stat_bounded st) (fold_interval stats r).
Proof.
  intros Hr Hcalls Hstats. unfold fold_interval.
  apply map_Forall_insert_2; [|done].
  assert (Hold : 0 ≤ self_us (default KernelStat_init (stats !! interval_name r))
                   ≤ total_us (default KernelStat_init (stats !! interval_name r))
                 ∧ 0 ≤ max_us (default KernelStat_init (stats !! interval_name r))
                   ≤ total_us (default KernelStat_init (stats !! interval_name r))).
  { destruct (stats !! interval_name r) as [st|] eqn:Hst; cbn; [|lia].
    destruct (Hstats _ _ Hst) as (? & ? & ?). done. }
  unfold stat_bounded. cbn. lia.
Qed.

Lemma fold_intervals_bounded rs : ∀ stats,
  Forall (λ r, 0 ≤ exclusive_us r ≤ inclusive_us r) rs →
  map_Forall (λ _ st, stat_bounded st) stats →
  map_Forall (λ _ st, stat_bounded st) (fold_intervals stats rs).
Proof.
  unfold fold_intervals.
  induction rs as [|r rest IH]; intros stats Hrs Hstats; [done|].
  inversion_clear Hrs as [|? ? Hr Hrest]. cbn [foldl].
  apply IH; [done|]. apply fold_interval_bounded; [done| |done].
  destruct (stats !! interval_name r) as [st|] eqn:Hst; cbn; [|lia].
  destruct (Hstats _ _ Hst) as (_ & _ & ?). lia.
Qed.

Lemma resolve_all_bounds event_lists :
  Forall (λ r, 0 ≤ exclusive_us r ≤ inclusive_us r) (resolve_all event_lists).
Proof.
  unfold resolve_all. apply Forall_concat, Forall_fmap, Forall_true.
  intros events. apply resolve_thread_bounds.
Qed.

(** C10: every interval emitted for any thread has
    0 <= exclusive_us <= inclusive_us, and every entry of the map that
    [aggregate_kernel_stats] builds from the empty map has
    self_us <= total_us and max_us <= total_us (and none of them negative,
    and calls >= 1). *)
Theorem intervals_and_entries_bounded (event_lists : list (list LegacyEvent)) :
  Forall (λ r, 0 ≤ exclusive_us r ≤ inclusive_us r) (resolve_all event_lists)
  ∧ map_Forall
      (λ _ st, self_us st ≤ total_us st ∧ max_us st ≤ total_us st
               ∧ stat_bounded st)
      (aggregate_kernel_stats event_lists ∅).
Proof.
  split; [apply resolve_all_bounds|].
  rewrite aggregate_kernel_stats_stages.
  pose proof (fold_intervals_bounded (resolve_all event_lists) ∅
                (resolve_all_bounds event_lists) (map_Forall_empty _)) as H.
  intros k st Hst. specialize (H k st Hst). cbn in H.
  unfold stat_bounded in *. cbn. lia.
Qed.

(** ** The order of folding *)

Lemma default_same_counts (o1 o2 : option KernelStat) :
  stat_counts <$> o1 = stat_counts <$> o2 →
  stat_counts (default KernelStat_init o1) = stat_counts (default KernelStat_init o2).
Proof. destruct o1, o2; cbn; congruence. Qed.

Lemma fold_interval_lookup stats r kernel :
  stat_counts <$> (fold_interval stats r !! kernel) =
  if decide (interval_name r = kernel)
  then let st := default KernelStat_init (stats !! kernel) in
       Some (calls st + 1, total_us st + inclusive_us r,
             self_us st + exclusive_us r, Z.max (max_us st) (inclusive_us r))
  else stat_counts <$> (stats !! kernel).
Proof.
  unfold fold_interval. rewrite lookup_insert.
  case_decide as Hk; [subst kernel|]; reflexivity.
Qed.

Lemma fold_interval_same_counts m1 m2 r :
  same_counts m1 m2 → same_counts (fold_interval m1 r) (fold_interval m2 r).
Proof.
  intros Hm kernel. rewrite !fold_interval_lookup.
  case_decide; [|apply Hm].
  pose proof (default_same_counts _ _ (Hm kernel)) as Hd.
  unfold stat_counts in Hd. cbn. congruence.
Qed.

Lemma fold_interval_comm stats r1 r2 :
  same_counts (fold_interval (fold_interval stats r1) r2)
              (fold_interval (fold_interval stats r2) r1).
Proof.
  intros kernel. rewrite !fold_interval_lookup.
  destruct r1 as [n1 s1 i1 x1], r2 as [n2 s2 i2 x2].
  unfold fold_interval. cbn [interval_name inclusive_us exclusive_us].
  repeat case_decide; subst;
    rewrite ?lookup_insert_eq, ?lookup_insert_ne by done; cbn;
    try reflexivity.
  do 2 f_equal; [f_equal; [f_equal|]|]; lia.
Qed.

Lemma fold_intervals_same_counts rs : ∀ m1 m2,
  same_counts m1 m2 → same_counts (fold_intervals m1 rs) (fold_intervals m2 rs).
Proof.
  unfold fold_intervals.
  induction rs as [|r rest IH]; intros m1 m2 Hm; [done|].
  cbn [foldl]. by apply IH, fold_interval_same_counts.
Qed.

Lemma fold_intervals_permutation rs1 rs2 :
  rs1 ≡ₚ rs2 →
  ∀ stats, same_counts (fold_intervals stats rs1) (fold_intervals stats rs2).
Proof.
  induction 1 as [|r l1 l2 _ IH|r1 r2 l|l1 l2 l3 _ IH1 _ IH2]; intros stats.
  - done.
  - apply (IH (fold_interval stats r)).
  - apply (fold_intervals_same_counts l), fold_interval_comm.
  - intros kernel. by rewrite IH1, IH2.
Qed.

(** C4: folding the same intervals into the map in any order gives, for
    every name, the same calls, the same max_us and the same total_us and
    self_us (exactly, the sums being exact here), and a name is in one
    result exactly when it is in the other; so two lists of threads that
    resolve to the same intervals in different orders aggregate to the same
    numbers. *)
Theorem fold_order_independent
    (stats : gmap string KernelStat) (rs1 rs2 : list ResolvedInterval)
    (kernel : string)
    (Hperm : rs1 ≡ₚ rs2) :
  stat_counts <$> (fold_intervals stats rs1 !! kernel)
  = stat_counts <$> (fold_intervals stats rs2 !! kernel)
  ∧ ∀ lists1 lists2,
      resolve_all lists1 = rs1 → resolve_all lists2 = rs2 →
      stat_counts <$> (aggregate_kernel_stats lists1 stats !! kernel)
      = stat_counts <$> (aggregate_kernel_stats lists2 stats !! kernel).
Proof.
  pose proof (fold_intervals_permutation rs1 rs2 Hperm stats kernel) as H.
  split; [exact H|].
  intros lists1 lists2 <- <-. by rewrite !aggregate_kernel_stats_stages.
Qed.

Lemma fold_order_independent_witness :
  stat_counts <$>
    (fold_intervals ∅ [ mkInterval "A" "" 5 3; mkInterval "A" "[2]" 9 9 ] !! "A")
  = stat_counts <$>
    (fold_intervals ∅ [ mkInterval "A" "[2]" 9 9; mkInterval "A" "" 5 3 ] !! "A").
Proof.
  exact (proj1 (fold_order_independent ∅
                  [ mkInterval "A" "" 5 3; mkInterval "A" "[2]" 9 9 ]
                  [ mkInterval "A" "[2]" 9 9; mkInterval "A" "" 5 3 ]
                  "A" (perm_swap _ _ _))).
Defined.

(** ** The sample shape *)

Lemma fold_interval_sample_shape stats r kernel :
  sample_shape (default KernelStat_init (fold_interval stats r !! kernel)) =
  let s0 := sample_shape (default KernelStat_init (stats !! kernel)) in
  if decide (interval_name r = kernel)
  then if string_empty s0 then interval_shape r else s0
  else s0.
Proof.
  unfold fold_interval. rewrite lookup_insert.
  case_decide as Hk; [subst kernel|]; reflexivity.
Qed.

Lemma fold_intervals_sample_shape rs : ∀ stats kernel,
  sample_shape (default KernelStat_init (fold_intervals stats rs !! kernel)) =
  let s0 := sample_shape (default KernelStat_init (stats !! kernel)) in
  if string_empty s0 then first_nonempty_shape kernel rs else s0.
Proof.
  unfold fold_intervals.
  induction rs as [|r rest IH]; intros stats kernel; cbn [foldl first_nonempty_shape].
  { cbn zeta. by destruct (sample_shape _). }
  rewrite IH, fold_interval_sample_shape. cbn zeta.
  case_decide; [|done].
  destruct (string_empty (sample_shape _)) eqn:Hs0; [|by rewrite Hs0].
  destruct (string_empty (interval_shape r)) eqn:Hr; done.
Qed.

(** C2 as stated fails: the first interval of "A" has the empty shape, and
    the sample shape of "A" ends as the shape of the second interval. *)
Lemma sample_shape_first_interval_not_kept :
  let events :=
    [ mkEvent PushRange "A" 0 []; mkEvent PopRange "A" 1 [];
      mkEvent PushRange "A" 2 [[2; 3]]; mkEvent PopRange "A" 3 [] ] in
  first_shape "A" (resolve_all [events]) = Some ""
  ∧ sample_shape <$> (aggregate_kernel_stats [events] ∅ !! "A") = Some "[2x3]"
  ∧ sample_shape <$> (aggregate_kernel_stats [events] ∅ !! "A")
    ≠ first_shape "A" (resolve_all [events]).
Proof. split_and!; vm_compute; [reflexivity..|discriminate]. Qed.

(** C2, amended: for every name in the map that [aggregate_kernel_stats]
    returns, sample_shape is the sample shape the name had before if that
    was not empty, and otherwise the shape of the first interval of that
    name whose shape is not empty (the empty string when there is none):
    a sample shape that is not empty is never overwritten, an empty one is
    replaced by the first shape that is not empty. *)
Theorem sample_shape_first_nonempty
    (event_lists : list (list LegacyEvent)) (stats : gmap string KernelStat)
    (kernel : string) (st : KernelStat)
    (Hst : aggregate_kernel_stats event_lists stats !! kernel = Some st) :
  sample_shape st =
  let s0 := sample_shape (default KernelStat_init (stats !! kernel)) in
  if string_empty s0
  then first_nonempty_shape kernel (resolve_all event_lists)
  else s0.
Proof.
  rewrite aggregate_kernel_stats_stages in Hst.
  pose proof (fold_intervals_sample_shape (resolve_all event_lists) stats kernel) as H.
  by rewrite Hst in H.
Qed.

Lemma sample_shape_first_nonempty_witness :
  sample_shape
    (mkStat 2 2 1 2 "[2x3]") =
  first_nonempty_shape "A"
    (resolve_all
       [[ mkEvent PushRange "A" 0 []; mkEvent PopRange "A" 1 [];
          mkEvent PushRange "A" 2 [[2; 3]]; mkEvent PopRange "A" 3 [] ]]).
Proof.
  exact (sample_shape_first_nonempty
           [[ mkEvent PushRange "A" 0 []; mkEvent PopRange "A" 1 [];
              mkEvent PushRange "A" 2 [[2; 3]]; mkEvent PopRange "A" 3 [] ]]
           ∅ "A" (mkStat 2 2 1 2 "[2x3]") eq_refl).
Defined.

(** ** The report *)

#[local] Instance may_precede_by_total_trans :
  Transitive (may_precede by_total_desc).
Proof.
  intros x y z. unfold may_precede, by_total_desc.
  rewrite !Z.ltb_ge. lia.
Qed.

#[local] Instance may_precede_by_total_total :
  Total (may_precede by_total_desc).
Proof.
  intros x y. unfold may_precede, by_total_desc.
  rewrite !Z.ltb_ge. lia.
Qed.

(** The model of [std::sort] is one of the outcomes the standard allows. *)
Lemma std_sort_sorted v : sorted_by by_total_desc v (std_sort by_total_desc v).
Proof.
  split; [apply merge_sort_Permutation|].
  apply (StronglySorted_merge_sort _).
Qed.

Lemma is_row_print_row entries :
  List.filter is_row (print_row <$> entries) = print_row <$> entries.
Proof.
  induction entries as [|[kernel stat] rest IH]; [done|].
  cbn. by rewrite IH.
Qed.

Lemma data_rows_print_ordered ordered :
  data_rows (print_ordered ordered)
  = print_row <$> take (Nat.min 30 (length ordered)) ordered.
Proof.
  unfold data_rows, print_ordered.
  rewrite !List.filter_app, is_row_print_row. cbn. by rewrite app_nil_r.
Qed.

Lemma foldl_sum_self_us entries : ∀ acc,
  foldl (λ acc entry, acc + self_us entry.2) acc entries
  = acc + sum_self_us entries.
Proof.
  unfold sum_self_us.
  induction entries as [|entry rest IH]; intros acc; cbn; [lia|].
  rewrite IH. lia.
Qed.

Lemma sum_self_us_permutation l1 l2 :
  l1 ≡ₚ l2 → sum_self_us l1 = sum_self_us l2.
Proof.
  unfold sum_self_us. induction 1; cbn; lia.
Qed.

Lemma self_time_total_print_ordered ordered :
  self_time_total (print_ordered ordered) = Some (sum_self_us ordered).
Proof.
  unfold self_time_total, print_ordered.
  rewrite app_assoc, last_app. cbn [last].
  by rewrite foldl_sum_self_us.
Qed.

(** C5: for a map with more than 30 entries the report has exactly 30 table
    rows, and the value on its "Self time total" line is the sum of self_us
    over all entries of the map, the ones without a row included. *)
Theorem report_truncated_total_complete
    (stats : gmap string KernelStat)
    (Hsize : (30 < size stats)%nat) :
  length (data_rows (print_kernel_stats stats)) = 30%nat
  ∧ self_time_total (print_kernel_stats stats)
    = Some (sum_self_us (map_to_list stats)).
Proof.
  unfold print_kernel_stats.
  destruct (decide (stats = ∅)) as [->|Hne].
  { rewrite map_size_empty in Hsize. lia. }
  destruct (std_sort_sorted (map_to_list stats)) as [Hperm _].
  rewrite data_rows_print_ordered, self_time_total_print_ordered.
  rewrite length_fmap, length_take, (Permutation_length Hperm),
    length_map_to_list.
  split; [lia|]. f_equal. by apply sum_self_us_permutation.
Qed.

Lemma report_truncated_total_complete_witness :
  length (data_rows (print_kernel_stats forty_kernels)) = 30%nat
  ∧ self_time_total (print_kernel_stats forty_kernels) = Some 820.
Proof.
  assert (Hsize : (30 < size forty_kernels)%nat) by (vm_compute; lia).
  destruct (report_truncated_total_complete forty_kernels Hsize) as [Hrows Htotal].
  split; [exact Hrows|]. rewrite Htotal. vm_compute. reflexivity.
Defined.

Lemma row_total_print_row (entries : list (string * KernelStat)) :
  omap row_total (print_row <$> entries) = (λ entry, total_us entry.2) <$> entries.
Proof.
  induction entries as [|[kernel stat] rest IH]; [done|].
  cbn. f_equal. exact IH.
Qed.

Lemma row_kernel_print_row (entries : list (string * KernelStat)) :
  omap row_kernel (print_row <$> entries)
  = (λ entry, String.substring 0 48 entry.1) <$> entries.
Proof.
  induction entries as [|[kernel stat] rest IH]; [done|].
  cbn. f_equal. exact IH.
Qed.

Lemma row_total_print_ordered ordered :
  omap row_total (print_ordered ordered)
  = (λ entry, total_us entry.2) <$> take (Nat.min 30 (length ordered)) ordered.
Proof.
  unfold print_ordered. rewrite !omap_app, row_total_print_row.
  cbn. by rewrite app_nil_r.
Qed.

Lemma row_kernels_data_rows report :
  row_kernels report = omap row_kernel (data_rows report).
Proof.
  unfold row_kernels, data_rows.
  induction report as [|[] rest IH]; cbn; try done. by rewrite IH.
Qed.

(** The rows of every report go down in Total(us). *)
Lemma report_totals_descending stats :
  StronglySorted (λ t1 t2, t2 ≤ t1) (omap row_total (print_kernel_stats stats)).
Proof.
  unfold print_kernel_stats. case_decide; [constructor|].
  rewrite row_total_print_ordered.
  destruct (std_sort_sorted (map_to_list stats)) as [_ Hsorted].
  rewrite <- (take_drop (Nat.min 30 (length (std_sort by_total_desc (map_to_list stats))))
                (std_sort by_total_desc (map_to_list stats))) in Hsorted.
  apply StronglySorted_app_1_l in Hsorted.
  eapply StronglySorted_fmap; [|exact Hsorted].
  intros x y. unfold may_precede, by_total_desc. by rewrite Z.ltb_ge.
Qed.

(** With totals that differ, only one order is sorted. *)
Lemma sorted_by_total_unique target input ordered :
  (∀ x y, x ∈ target → y ∈ target → total_us x.2 = total_us y.2 → x = y) →
  StronglySorted (may_precede by_total_desc) target →
  input ≡ₚ target →
  sorted_by by_total_desc input ordered →
  ordered = target.
Proof.
  intros Hdiff Htarget Hinput [Hperm Hsorted]. symmetry.
  apply (StronglySorted_unique_strong (may_precede by_total_desc));
    [|done|done|by rewrite Hperm].
  intros x y Hx Hy. unfold may_precede, by_total_desc.
  rewrite !Z.ltb_ge. intros H1 H2.
  apply Hdiff; [done| |lia]. by rewrite <- Hinput, <- Hperm.
Qed.

(** C6: the rows of every report go down in Total(us); and for a map of
    three names a, b, c whose totals are 100, 50 and 200 the rows are those
    of c, a, b in this order, the kernel column showing the first 48
    characters of the names.  The order does not depend on how [std::sort]
    or the map's iteration are implemented: it is the only one that is
    sorted. *)
Theorem ranking_by_total_desc
    (a b c : string) (sa sb sc : KernelStat)
    (Hab : a ≠ b) (Hac : a ≠ c) (Hbc : b ≠ c)
    (Ha : total_us sa = 100) (Hb : total_us sb = 50) (Hc : total_us sc = 200) :
  let stats : gmap string KernelStat := <[c:=sc]> (<[b:=sb]> (<[a:=sa]> ∅)) in
  data_rows (print_kernel_stats stats) = print_row <$> [(c, sc); (a, sa); (b, sb)]
  ∧ row_kernels (print_kernel_stats stats)
    = String.substring 0 48 <$> [c; a; b]
  ∧ (∀ ordered,
       sorted_by by_total_desc (map_to_list stats) ordered →
       ordered = [(c, sc); (a, sa); (b, sb)])
  ∧ ∀ stats' : gmap string KernelStat,
      StronglySorted (λ t1 t2, t2 ≤ t1)
        (omap row_total (print_kernel_stats stats')).
Proof.
  intros stats.
  assert (Hlist : map_to_list stats ≡ₚ [(c, sc); (a, sa); (b, sb)]).
  { unfold stats.
    rewrite !map_to_list_insert, map_to_list_empty by by simplify_map_eq.
    apply perm_skip, perm_swap. }
  assert (Hunique : ∀ ordered,
            sorted_by by_total_desc (map_to_list stats) ordered →
            ordered = [(c, sc); (a, sa); (b, sb)]).
  { intros ordered. apply sorted_by_total_unique; [| |done].
    - intros x y Hx Hy. set_unfold. cbn.
      destruct Hx as [->|[->|[->|[]]]], Hy as [->|[->|[->|[]]]]; cbn;
        intros; try done; lia.
    - repeat constructor; unfold may_precede, by_total_desc; cbn;
        apply Z.ltb_ge; lia. }
  assert (Hrows : data_rows (print_kernel_stats stats)
                  = print_row <$> [(c, sc); (a, sa); (b, sb)]).
  { unfold print_kernel_stats.
    rewrite decide_False by apply insert_non_empty.
    rewrite data_rows_print_ordered.
    by rewrite (Hunique _ (std_sort_sorted _)). }
  split_and!; [done| |done|apply report_totals_descending].
  rewrite row_kernels_data_rows, Hrows. apply row_kernel_print_row.
Qed.

Lemma ranking_by_total_desc_witness :
  row_kernels
    (print_kernel_stats
       (<["C" := mkStat 200 150 120 2 ""]>
          (<["B" := mkStat 50 50 50 1 ""]>
             (<["A" := mkStat 100 80 100 1 "[4x4]"]> ∅))))
  = [ "C"; "A"; "B" ].
Proof.
  exact (proj1 (proj2
    (ranking_by_total_desc "A" "B" "C"
       (mkStat 100 80 100 1 "[4x4]") (mkStat 50 50 50 1 "")
       (mkStat 200 150 120 2 "")
       ltac:(discriminate) ltac:(discriminate) ltac:(discriminate)
       eq_refl eq_refl eq_refl))).
Defined.

(** * Further properties of the aggregation *)

(** ** The entries in terms of the closed ranges *)

Lemma fold_intervals_cons stats r rs :
  fold_intervals stats (r :: rs) = fold_intervals (fold_interval stats r) rs.
Proof. reflexivity. Qed.

Lemma fold_interval_lookup_ne stats r kernel :
  interval_name r ≠ kernel → fold_interval stats r !! kernel = stats !! kernel.
Proof. intros Hne. unfold fold_interval. by rewrite lookup_insert_ne. Qed.

Lemma fold_interval_lookup_eq stats r :
  fold_interval stats r !! interval_name r
  = Some (entry_after (default KernelStat_init (stats !! interval_name r))
            (interval_name r) [r]).
Proof.
  unfold fold_interval, entry_after, intervals_of.
  rewrite lookup_insert_eq. cbn [List.filter first_nonempty_shape].
  rewrite bool_decide_true, decide_True by done. cbn.
  do 2 f_equal; try lia.
  by destruct (string_empty (interval_shape r)) eqn:Hr;
    destruct (interval_shape r).
Qed.

Lemma max_inclusive_floor x floor rs :
  max_inclusive (Z.max x floor) rs = Z.max x (max_inclusive floor rs).
Proof. unfold max_inclusive. induction rs as [|r rest IH]; cbn; lia. Qed.

Lemma entry_after_cons_eq old r rs :
  entry_after (entry_after old (interval_name r) [r]) (interval_name r) rs
  = entry_after old (interval_name r) (r :: rs).
Proof.
  unfold entry_after, intervals_of. cbn [List.filter first_nonempty_shape].
  rewrite bool_decide_true, !decide_True by done.
  cbn [calls total_us self_us max_us sample_shape].
  f_equal.
  - unfold sum_inclusive. cbn. lia.
  - unfold sum_exclusive. cbn. lia.
  - exact (max_inclusive_floor (inclusive_us r) (max_us old) _).
  - cbn [length]. lia.
  - destruct (string_empty (sample_shape old)) eqn:Hold; [|by rewrite Hold].
    by destruct (string_empty (interval_shape r)) eqn:Hr; rewrite ?Hr.
Qed.

Lemma entry_after_cons_ne old kernel r rs :
  interval_name r ≠ kernel →
  entry_after old kernel (r :: rs) = entry_after old kernel rs.
Proof.
  intros Hne. unfold entry_after, intervals_of.
  cbn [List.filter first_nonempty_shape].
  by rewrite bool_decide_false, decide_False by done.
Qed.

Lemma intervals_of_cons_eq r rs :
  intervals_of (interval_name r) (r :: rs) = r :: intervals_of (interval_name r) rs.
Proof. unfold intervals_of. cbn. by rewrite bool_decide_true. Qed.

Lemma intervals_of_cons_ne kernel r rs :
  interval_name r ≠ kernel → intervals_of kernel (r :: rs) = intervals_of kernel rs.
Proof. intros Hne. unfold intervals_of. cbn. by rewrite bool_decide_false. Qed.

Lemma first_nonempty_shape_none kernel rs :
  intervals_of kernel rs = [] → first_nonempty_shape kernel rs = "".
Proof.
  induction rs as [|r rest IH]; [done|]. cbn [first_nonempty_shape].
  case_decide as Hk.
  - subst kernel. by rewrite intervals_of_cons_eq.
  - rewrite intervals_of_cons_ne by done. exact IH.
Qed.

Lemma entry_after_none old kernel rs :
  intervals_of kernel rs = [] → entry_after old kernel rs = old.
Proof.
  intros Hnone. unfold entry_after.
  rewrite Hnone, first_nonempty_shape_none by done.
  destruct old as [t s m c shape]. cbn. f_equal; try lia.
  by destruct shape.
Qed.

Lemma fold_intervals_lookup rs : ∀ stats kernel,
  fold_intervals stats rs !! kernel =
  match intervals_of kernel rs with
  | [] => stats !! kernel
  | _ :: _ =>
      Some (entry_after (default KernelStat_init (stats !! kernel)) kernel rs)
  end.
Proof.
  induction rs as [|r rest IH]; intros stats kernel; [done|].
  rewrite fold_intervals_cons, IH.
  destruct (decide (interval_name r = kernel)) as [<-|Hne].
  - rewrite fold_interval_lookup_eq, intervals_of_cons_eq.
    destruct (intervals_of (interval_name r) rest) eqn:Hrest.
    + by rewrite <- (entry_after_cons_eq _ r rest), (entry_after_none _ _ rest).
    + f_equal. apply entry_after_cons_eq.
  - rewrite fold_interval_lookup_ne, entry_after_cons_ne by done.
    by rewrite intervals_of_cons_ne.
Qed.

(** X1: after [aggregate_kernel_stats], a name for which no range was
    closed has the entry it had before (or none), and a name for which
    ranges were closed has: calls raised by their number, total_us by the
    sum of their inclusive times, self_us by the sum of their exclusive
    times, max_us the largest of its old value and their inclusive times,
    and the sample shape of C2. *)
Theorem aggregate_entry
    (event_lists : list (list LegacyEvent)) (stats : gmap string KernelStat)
    (kernel : string) :
  aggregate_kernel_stats event_lists stats !! kernel =
  match intervals_of kernel (resolve_all event_lists) with
  | [] => stats !! kernel
  | _ :: _ =>
      Some (entry_after (default KernelStat_init (stats !! kernel)) kernel
              (resolve_all event_lists))
  end.
Proof. rewrite aggregate_kernel_stats_stages. apply fold_intervals_lookup. Qed.

Lemma Forall_list_filter {A} (P : A → Prop) (f : A → bool) (l : list A) :
  Forall P l → Forall P (List.filter f l).
Proof.
  induction 1 as [|x l Hx Hl IH]; cbn; [constructor|].
  destruct (f x); [by constructor|done].
Qed.

Lemma sums_bounded rs :
  Forall (λ r, 0 ≤ exclusive_us r ≤ inclusive_us r) rs →
  0 ≤ sum_exclusive rs ≤ sum_inclusive rs.
Proof.
  unfold sum_exclusive, sum_inclusive.
  induction 1 as [|r rest Hr Hrest IH]; cbn; lia.
Qed.

Lemma max_inclusive_ge floor rs : floor ≤ max_inclusive floor rs.
Proof. unfold max_inclusive. induction rs as [|r rest IH]; cbn; lia. Qed.

(** X2: [aggregate_kernel_stats] never removes an entry and never lowers
    one of its numbers: a name that is in the map before is in the map
    after, with calls, total_us, self_us and max_us at least what they
    were, and with its sample shape kept if that was not empty. *)
Theorem entries_only_grow
    (event_lists : list (list LegacyEvent)) (stats : gmap string KernelStat)
    (kernel : string) (old : KernelStat)
    (Hold : stats !! kernel = Some old) :
  ∃ new,
    aggregate_kernel_stats event_lists stats !! kernel = Some new
    ∧ calls old ≤ calls new ∧ total_us old ≤ total_us new
    ∧ self_us old ≤ self_us new ∧ max_us old ≤ max_us new
    ∧ (string_empty (sample_shape old) = false →
       sample_shape new = sample_shape old).
Proof.
  rewrite aggregate_entry, Hold.
  change (default KernelStat_init (Some old)) with old.
  pose proof (sums_bounded (intervals_of kernel (resolve_all event_lists))
                (Forall_list_filter _ _ _ (resolve_all_bounds event_lists))) as Hsum.
  pose proof (max_inclusive_ge (max_us old)
                (intervals_of kernel (resolve_all event_lists))) as Hmax.
  destruct (intervals_of kernel (resolve_all event_lists)) eqn:Hrs.
  { exists old. split_and!; done || lia. }
  eexists. split; [reflexivity|].
  unfold entry_after. rewrite Hrs.
  cbn [calls total_us self_us max_us sample_shape].
  split_and!; try lia. by intros ->.
Qed.

Lemma entries_only_grow_witness :
  ∃ new,
    aggregate_kernel_stats
      [[ mkEvent PushRange "A" 0 []; mkEvent PopRange "" 7 [] ]]
      (<["A" := mkStat 10 10 10 1 "[2]"]> ∅) !! "A" = Some new
    ∧ 1 ≤ calls new ∧ 10 ≤ total_us new.
Proof.
  assert (Hold : (<["A" := mkStat 10 10 10 1 "[2]"]> ∅ : gmap string KernelStat)
                   !! "A" = Some (mkStat 10 10 10 1 "[2]"))
    by (vm_compute; reflexivity).
  destruct (entries_only_grow
              [[ mkEvent PushRange "A" 0 []; mkEvent PopRange "" 7 [] ]]
              _ "A" _ Hold)
    as (new & Hnew & Hcalls & Htotal & _).
  exists new. split_and!; [exact Hnew|exact Hcalls|exact Htotal].
Defined.

(** ** What the loop does not look at *)

Lemma process_event_other st e :
  is_range_event e = false → process_event st e = st.
Proof.
  destruct st as [stack stats]. unfold is_range_event, process_event.
  by destruct (kind e).
Qed.

Lemma foldl_process_event_filter events : ∀ st,
  foldl process_event st (List.filter is_range_event events)
  = foldl process_event st events.
Proof.
  induction events as [|e rest IH]; intros st; [done|].
  cbn [List.filter foldl].
  destruct (is_range_event e) eqn:He; cbn [foldl]; [apply IH|].
  by rewrite (process_event_other st e He).
Qed.

(** X3: events that are neither PushRange nor PopRange (Mark, MemoryAlloc)
    have no effect, wherever they stand: the map is the one obtained from
    the streams with these events taken out. *)
Theorem other_events_ignored
    (event_lists : list (list LegacyEvent)) (stats : gmap string KernelStat) :
  aggregate_kernel_stats (List.filter is_range_event <$> event_lists) stats
  = aggregate_kernel_stats event_lists stats.
Proof.
  unfold aggregate_kernel_stats. revert stats.
  induction event_lists as [|events rest IH]; intros stats; [done|].
  cbn [fmap list_fmap foldl]. rewrite IH. f_equal.
  unfold aggregate_thread_events. by rewrite foldl_process_event_filter.
Qed.

Lemma process_event_same_for_ranges st e e' :
  same_for_ranges e e' → process_event st e = process_event st e'.
Proof.
  intros (Hkind & Htime & Hpush). destruct st as [stack stats].
  unfold process_event, cpuElapsedUs. rewrite <- Hkind, <- Htime.
  destruct (kind e); try done. by rewrite Hpush.
Qed.

(** X4: of a PopRange event the loop reads the timestamp only; its name and
    shapes are never used (the entry is filed under the name of the
    PushRange that opened the range).  Streams that agree on the kinds and
    timestamps of their events, and on the PushRange events altogether,
    give the same map. *)
Theorem pop_fields_unused
    (event_lists event_lists' : list (list LegacyEvent))
    (stats : gmap string KernelStat)
    (Hsame : Forall2 (Forall2 same_for_ranges) event_lists event_lists') :
  aggregate_kernel_stats event_lists stats
  = aggregate_kernel_stats event_lists' stats.
Proof.
  unfold aggregate_kernel_stats. revert stats.
  induction Hsame as [|events events' rest rest' Hevents _ IH]; intros stats;
    [done|].
  cbn [foldl]. rewrite IH. f_equal. unfold aggregate_thread_events. f_equal.
  generalize (@nil ActiveRange, stats).
  induction Hevents as [|e e' l l' He _ IHl]; intros st; [done|].
  cbn [foldl]. by rewrite (process_event_same_for_ranges st e e' He), IHl.
Qed.

Lemma pop_fields_unused_witness :
  aggregate_kernel_stats
    [[ mkEvent PushRange "A" 0 [[2]]; mkEvent PopRange "A" 7 [[2]] ]] ∅
  = aggregate_kernel_stats
    [[ mkEvent PushRange "A" 0 [[2]]; mkEvent PopRange "" 7 [] ]] ∅.
Proof.
  apply pop_fields_unused.
  repeat constructor; discriminate.
Defined.

(** ** Timestamps in order: no clamping, and self times add up *)


Lemma stack_timed_nonneg stack : ∀ now,
  stack_timed now stack → child_times_nonneg stack.
Proof.
  induction stack as [|f below IH]; intros now; [constructor|].
  cbn. intros (? & ? & Hbelow). constructor; [done|]. by eapply IH.
Qed.














Lemma sum_self_us_insert (m : gmap string KernelStat) kernel st :
  sum_self_us (map_to_list (<[kernel := st]> m))
  = sum_self_us (map_to_list m)
    - self_us (default KernelStat_init (m !! kernel)) + self_us st.
Proof.
  destruct (m !! kernel) as [old|] eqn:Hold; cbn [default from_option].
  - rewrite <- insert_delete_eq.
    rewrite (sum_self_us_permutation _ _
               (map_to_list_insert _ _ _ (lookup_delete_eq m kernel))).
    rewrite <- (sum_self_us_permutation _ _ (map_to_list_delete _ _ _ Hold)).
    unfold sum_self_us. cbn. lia.
  - rewrite (sum_self_us_permutation _ _ (map_to_list_insert _ _ _ Hold)).
    unfold sum_self_us. cbn. lia.
Qed.

Lemma sum_self_us_fold_intervals rs : ∀ stats,
  sum_self_us (map_to_list (fold_intervals stats rs))
  = sum_self_us (map_to_list stats) + sum_exclusive rs.
Proof.
  induction rs as [|r rest IH]; intros stats.
  { unfold sum_exclusive. cbn. lia. }
  rewrite fold_intervals_cons, IH. unfold fold_interval.
  rewrite sum_self_us_insert. unfold sum_exclusive. cbn. lia.
Qed.

Lemma fold_intervals_non_empty rs : ∀ stats,
  stats ≠ ∅ → fold_intervals stats rs ≠ ∅.
Proof.
  induction rs as [|r rest IH]; intros stats Hne; [done|].
  rewrite fold_intervals_cons. apply IH, insert_non_empty.
Qed.

Lemma self_time_total_fold_intervals rs :
  self_time_total (print_kernel_stats (fold_intervals ∅ rs))
  = match rs with
    | [] => None
    | _ :: _ => Some (sum_exclusive rs)
    end.
Proof.
  destruct rs as [|r rest]; [done|].
  unfold print_kernel_stats. rewrite decide_False.
  2: { rewrite fold_intervals_cons.
       apply (fold_intervals_non_empty rest (fold_interval ∅ r)).
       unfold fold_interval. apply insert_non_empty. }
  rewrite self_time_total_print_ordered.
  destruct (std_sort_sorted (map_to_list (fold_intervals ∅ (r :: rest))))
    as [Hperm _].
  rewrite (sum_self_us_permutation _ _ Hperm), sum_self_us_fold_intervals.
  by rewrite map_to_list_empty.
Qed.




(** * Further properties of the report *)

(** X9: the rows of a report show the min(30, size) entries with the
    largest total_us: the entries of the map split into those shown, one
    row each and no name twice, and those hidden, and no hidden entry has
    a larger total_us than a shown one. *)
Theorem rows_are_the_largest (stats : gmap string KernelStat) :
  ∃ shown hidden,
    map_to_list stats ≡ₚ shown ++ hidden
    ∧ data_rows (print_kernel_stats stats) = print_row <$> shown
    ∧ length shown = Nat.min 30 (size stats)
    ∧ NoDup shown.*1
    ∧ ∀ x y, x ∈ shown → y ∈ hidden → total_us y.2 ≤ total_us x.2.
Proof.
  unfold print_kernel_stats. case_decide as Hempty.
  { subst stats. exists [], []. rewrite map_to_list_empty, map_size_empty.
    split_and!; [done|done|done|constructor|].
    intros x y Hx. by apply elem_of_nil in Hx. }
  destruct (std_sort_sorted (map_to_list stats)) as [Hperm Hsorted].
  set (ordered := std_sort by_total_desc (map_to_list stats)) in *.
  exists (take (Nat.min 30 (length ordered)) ordered),
         (drop (Nat.min 30 (length ordered)) ordered).
  assert (Hnames : NoDup (take (Nat.min 30 (length ordered)) ordered
                          ++ drop (Nat.min 30 (length ordered)) ordered).*1).
  { rewrite take_drop, Hperm. apply NoDup_fst_map_to_list. }
  rewrite fmap_app in Hnames. apply NoDup_app in Hnames as (Hshown & _ & _).
  split_and!.
  - by rewrite take_drop.
  - apply data_rows_print_ordered.
  - rewrite length_take, (Permutation_length Hperm), length_map_to_list. lia.
  - exact Hshown.
  - intros x y Hx Hy.
    rewrite <- (take_drop (Nat.min 30 (length ordered)) ordered) in Hsorted.
    pose proof (StronglySorted_app_1_elem_of _ _ _ x y Hsorted Hx Hy) as Hxy.
    unfold may_precede, by_total_desc in Hxy. by apply Z.ltb_ge in Hxy.
Qed.

Lemma substring_0_length n : ∀ s,
  String.length (String.substring 0 n s) = Nat.min n (String.length s).
Proof.
  induction n as [|n IH]; intros [|c s]; cbn; try done. by rewrite IH.
Qed.

Lemma substring_0_prefix n : ∀ s,
  ∃ rest, s = String.substring 0 n s +:+ rest.
Proof.
  induction n as [|n IH]; intros [|c s]; cbn.
  - by exists "".
  - by exists (String c s).
  - by exists "".
  - destruct (IH s) as [rest Hrest]. exists rest.
    exact (f_equal (String c) Hrest).
Qed.

Lemma substring_0_all n : ∀ s,
  (String.length s ≤ n)%nat → String.substring 0 n s = s.
Proof.
  induction n as [|n IH]; intros [|c s]; cbn; intros Hlen; try done; [lia|].
  rewrite IH; [done|lia].
Qed.

(** X10: every row of a report shows one entry of the map, under the first
    48 characters of its name: the label is never longer than 48
    characters, it is a prefix of the name, and a name of at most 48
    characters is shown in full. *)
Theorem rows_show_entries (stats : gmap string KernelStat) :
  Forall
    (λ row, ∃ kernel st label,
       stats !! kernel = Some st
       ∧ row = print_row (kernel, st)
       ∧ row_kernel row = Some label
       ∧ row_total row = Some (total_us st)
       ∧ (String.length label ≤ 48)%nat
       ∧ (∃ rest, kernel = label +:+ rest)
       ∧ ((String.length kernel ≤ 48)%nat → label = kernel))
    (data_rows (print_kernel_stats stats)).
Proof.
  unfold print_kernel_stats. case_decide as Hempty; [constructor|].
  rewrite data_rows_print_ordered. apply Forall_fmap, Forall_forall.
  intros [kernel st] Hin.
  apply elem_of_take in Hin as (i & Hin%list_elem_of_lookup_2 & _).
  destruct (std_sort_sorted (map_to_list stats)) as [Hperm _].
  rewrite Hperm in Hin. apply elem_of_map_to_list in Hin.
  exists kernel, st, (String.substring 0 48 kernel).
  split_and!; try done.
  - rewrite substring_0_length. lia.
  - apply substring_0_prefix.
  - apply substring_0_all.
Qed.

Lemma fold_intervals_empty_iff rs : fold_intervals ∅ rs = ∅ ↔ rs = [].
Proof.
  split; [|by intros ->].
  destruct rs as [|r rest]; [done|]. intros Hempty. exfalso.
  rewrite fold_intervals_cons in Hempty.
  eapply (fold_intervals_non_empty rest (fold_interval ∅ r)); [|done].
  unfold fold_interval. apply insert_non_empty.
Qed.

(** X11: what [main] prints about the profile has three cases.  Without
    any event list it is "Profiler did not capture any events."; with
    event lists in which no range is closed it is "No profiler events
    collected."; and as soon as one range is closed it is the table, which
    has at least one row and ends with the "Self time total" line. *)
Theorem report_profile_cases (profiler_events : list (list LegacyEvent)) :
  match profiler_events, resolve_all profiler_events with
  | [], _ =>
      report_profile profiler_events
      = [ Text "Profiler did not capture any events." ]
  | _ :: _, [] =>
      report_profile profiler_events
      = [ Text "No profiler events collected." ]
  | _ :: _, rs =>
      (0 < length (data_rows (report_profile profiler_events)))%nat
      ∧ self_time_total (report_profile profiler_events)
        = Some (sum_exclusive rs)
  end.
Proof.
  destruct profiler_events as [|events rest]; [done|].
  change (report_profile (events :: rest))
    with (print_kernel_stats (aggregate_kernel_stats (events :: rest) ∅)).
  rewrite aggregate_kernel_stats_stages.
  destruct (resolve_all (events :: rest)) as [|r rs] eqn:Hrs.
  { unfold print_kernel_stats. by rewrite decide_True. }
  split; [|apply (self_time_total_fold_intervals (r :: rs))].
  unfold print_kernel_stats. rewrite decide_False.
  2: { rewrite fold_intervals_empty_iff. done. }
  rewrite data_rows_print_ordered, length_fmap, length_take.
  destruct (std_sort_sorted (map_to_list (fold_intervals ∅ (r :: rs))))
    as [Hperm _].
  rewrite (Permutation_length Hperm), length_map_to_list.
  assert (size (fold_intervals ∅ (r :: rs)) ≠ 0%nat); [|lia].
  apply map_size_non_empty_iff. rewrite fold_intervals_empty_iff. done.
Qed.

(** * Properties of the token files *)

(** ** Numbers as they are printed and read *)

Lemma string_app_assoc (s1 s2 s3 : string) :
  (s1 +:+ s2) +:+ s3 = s1 +:+ (s2 +:+ s3).
Proof. induction s1 as [|c s1 IH]; [done|]. exact (f_equal (String c) IH). Qed.

Lemma string_app_length (s1 s2 : string) :
  String.length (s1 +:+ s2) = (String.length s1 + String.length s2)%nat.
Proof. induction s1 as [|c s1 IH]; [done|]. exact (f_equal S IH). Qed.

Lemma pretty_N_go_app x : ∀ s r,
  pretty_N_go x s +:+ r = pretty_N_go x (s +:+ r).
Proof.
  induction (N.lt_wf_0 x) as [x _ IH]; intros s r.
  destruct (decide (x = 0%N)) as [->|Hx]; [by rewrite !pretty_N_go_0|].
  rewrite (pretty_N_go_step x s), (pretty_N_go_step x (s +:+ r)) by lia.
  apply (IH (x `div` 10)%N); apply N.div_lt; lia.
Qed.

Lemma digit_value_pretty_N_char d :
  (d < 10)%N → digit_value (pretty_N_char d) = Some (Z.of_N d).
Proof.
  intros Hd.
  assert (d = 0 ∨ d = 1 ∨ d = 2 ∨ d = 3 ∨ d = 4 ∨ d = 5 ∨ d = 6 ∨ d = 7
          ∨ d = 8 ∨ d = 9)%N as Hcases by lia.
  destruct Hcases as [->|[->|[->|[->|[->|[->|[->|[->|[->| ->]]]]]]]]]; reflexivity.
Qed.

Lemma read_digits_pretty_N_go x : ∀ u,
  read_digits 0 (pretty_N_go x u) = read_digits (Z.of_N x) u.
Proof.
  induction (N.lt_wf_0 x) as [x _ IH]; intros u.
  destruct (decide (x = 0%N)) as [->|Hx]; [by rewrite pretty_N_go_0|].
  rewrite pretty_N_go_step by lia.
  rewrite IH by (apply N.div_lt; lia). cbn [read_digits].
  rewrite digit_value_pretty_N_char by (apply N.mod_lt; lia).
  f_equal. pose proof (N.div_mod x 10 ltac:(lia)) as Hdm.
  apply (f_equal Z.of_N) in Hdm. rewrite N2Z.inj_add, N2Z.inj_mul in Hdm.
  change (Z.of_N 10) with 10 in Hdm. by symmetry.
Qed.

Lemma starts_with_digit_pretty_N_go x : ∀ u,
  (0 < x)%N → starts_with_digit (pretty_N_go x u) = true.
Proof.
  induction (N.lt_wf_0 x) as [x _ IH]; intros u Hx.
  rewrite pretty_N_go_step by lia.
  destruct (decide (x `div` 10 = 0)%N) as [->|Hdiv].
  - rewrite pretty_N_go_0. cbn.
    rewrite digit_value_pretty_N_char by (apply N.mod_lt; lia).
    by apply bool_decide_eq_true.
  - apply IH; [apply N.div_lt; lia|]. by apply N.neq_0_lt_0.
Qed.

Lemma read_digits_stop acc u :
  starts_with_digit u = false → read_digits acc u = (acc, u).
Proof.
  destruct u as [|c u]; [done|]. cbn.
  destruct (digit_value c); [|done].
  intros Hd. by apply bool_decide_eq_false in Hd as [].
Qed.

Lemma digit_not_space_nor_sign c :
  is_Some (digit_value c) →
  Ascii.is_space c = false ∧ c ≠ "-"%char ∧ c ≠ "+"%char ∧ c ≠ newline.
Proof.
  destruct c as [[] [] [] [] [] [] [] []]; vm_compute; intros [d Hd];
    try discriminate; done.
Qed.

Lemma skip_space_digit s :
  starts_with_digit s = true → skip_space s = s ∧ read_sign s = (false, s).
Proof.
  destruct s as [|c s]; [done|]. cbn. intros Hc%bool_decide_eq_true.
  destruct (digit_not_space_nor_sign c Hc) as (-> & ? & ? & _).
  by rewrite !decide_False.
Qed.

Lemma extract_int64_digits s :
  starts_with_digit s = true →
  extract_int64 s
  = let '(magnitude, rest) := read_digits 0 s in
    if (INT64_MIN <=? magnitude) && (magnitude <=? INT64_MAX)
    then Some (magnitude, rest) else None.
Proof.
  intros Hs. unfold extract_int64.
  destruct (skip_space_digit s Hs) as [-> ->]. by rewrite Hs.
Qed.

Lemma in_int64_check value :
  in_int64 value → (INT64_MIN <=? value) && (value <=? INT64_MAX) = true.
Proof.
  intros [Hlo Hhi]. apply andb_true_iff. split; by apply Z.leb_le.
Qed.

(** Reading back a printed number: [out << t] followed by anything that
    does not start with a digit is read by [>>] as [t], up to there. *)
Lemma extract_int64_pretty (t : Z) (u : string) :
  in_int64 t → starts_with_digit u = false →
  extract_int64 (pretty t +:+ u) = Some (t, u).
Proof.
  intros Ht Hu. unfold pretty, pretty_Z.
  destruct t as [|p|p].
  - change ("0" +:+ u) with (String "0" u).
    rewrite extract_int64_digits by reflexivity.
    change (read_digits 0 (String "0" u)) with (read_digits 0 u).
    rewrite read_digits_stop by done. by rewrite in_int64_check.
  - unfold pretty, pretty_positive, pretty, pretty_N.
    rewrite decide_False by done. rewrite pretty_N_go_app.
    rewrite extract_int64_digits by (by apply starts_with_digit_pretty_N_go).
    rewrite read_digits_pretty_N_go, read_digits_stop by done.
    change (Z.of_N (N.pos p)) with (Z.pos p). by rewrite in_int64_check.
  - unfold pretty, pretty_positive, pretty, pretty_N.
    rewrite decide_False by done.
    change (("-" +:+ pretty_N_go (N.pos p) "") +:+ u)
      with (String "-" (pretty_N_go (N.pos p) "" +:+ u)).
    rewrite pretty_N_go_app. unfold extract_int64.
    cbn [skip_space Ascii.is_space read_sign]. rewrite decide_True by done.
    rewrite starts_with_digit_pretty_N_go by done.
    rewrite read_digits_pretty_N_go, read_digits_stop by done.
    change (- Z.of_N (N.pos p)) with (Z.neg p). by rewrite in_int64_check.
Qed.

(** ** The reading loop does not depend on its bound *)

Lemma skip_space_length s :
  (String.length (skip_space s) ≤ String.length s)%nat.
Proof.
  induction s as [|c s IH]; [done|]. cbn.
  destruct (Ascii.is_space c); cbn; lia.
Qed.

Lemma read_sign_length s :
  (String.length (read_sign s).2 ≤ String.length s)%nat.
Proof.
  destruct s as [|c s]; [done|]. cbn. repeat case_decide; cbn; lia.
Qed.

Lemma read_digits_length s : ∀ acc,
  (String.length (read_digits acc s).2 ≤ String.length s)%nat.
Proof.
  induction s as [|c s IH]; intros acc; [done|]. cbn.
  destruct (digit_value c); cbn; [|lia]. specialize (IH (10 * acc + z)). lia.
Qed.

Lemma extract_int64_shorter s value rest :
  extract_int64 s = Some (value, rest) →
  (String.length rest < String.length s)%nat.
Proof.
  unfold extract_int64.
  pose proof (skip_space_length s) as Hskip.
  pose proof (read_sign_length (skip_space s)) as Hsign.
  destruct (read_sign (skip_space s)) as [negative s'] eqn:Hs'.
  cbn [snd] in Hsign.
  destruct s' as [|c s'']; [done|]. cbn [starts_with_digit].
  case_bool_decide as Hc; [|done]. destruct Hc as [d Hd].
  cbn [read_digits]. rewrite Hd.
  pose proof (read_digits_length s'' (10 * 0 + d)) as Hdigits.
  destruct (read_digits (10 * 0 + d) s'') as [magnitude rest'].
  destruct (_ && _); [|done]. intros [= _ <-]. cbn in *. lia.
Qed.

Lemma read_values_enough s : ∀ fuel fuel',
  (String.length s < fuel)%nat → (String.length s < fuel')%nat →
  read_values fuel s = read_values fuel' s.
Proof.
  revert s.
  enough (∀ n s, (String.length s < n)%nat →
            ∀ fuel fuel', (String.length s < fuel)%nat →
              (String.length s < fuel')%nat →
              read_values fuel s = read_values fuel' s) as H
    by (intros s fuel fuel'; apply (H (S (String.length s))); lia).
  induction n as [|n IH]; intros s Hn fuel fuel' Hf Hf'; [lia|].
  destruct fuel as [|fuel]; [lia|]. destruct fuel' as [|fuel']; [lia|].
  cbn [read_values].
  destruct (extract_int64 s) as [[value rest]|] eqn:Hex; [|done].
  apply extract_int64_shorter in Hex. f_equal. apply IH; lia.
Qed.

Lemma read_values_S fuel s :
  read_values (S fuel) s
  = match extract_int64 s with
    | Some (value, rest) => value :: read_values fuel rest
    | None => []
    end.
Proof. reflexivity. Qed.

Lemma line_values_step s value rest :
  extract_int64 s = Some (value, rest) →
  line_values s = value :: line_values rest.
Proof.
  intros Hex. unfold line_values. rewrite (read_values_S _ s), Hex. f_equal.
  apply extract_int64_shorter in Hex. apply read_values_enough; lia.
Qed.

Lemma line_values_stop s :
  extract_int64 s = None → line_values s = [].
Proof. intros Hex. unfold line_values. by rewrite read_values_S, Hex. Qed.

Lemma line_values_space c s :
  Ascii.is_space c = true → line_values (String c s) = line_values s.
Proof.
  intros Hc.
  assert (Hex : extract_int64 (String c s) = extract_int64 s).
  { unfold extract_int64. cbn [skip_space]. by rewrite Hc. }
  destruct (extract_int64 s) as [[value rest]|] eqn:Hs.
  - by rewrite (line_values_step _ _ _ Hex), (line_values_step _ _ _ Hs).
  - by rewrite (line_values_stop _ Hex), (line_values_stop _ Hs).
Qed.

Lemma line_values_junk s :
  starts_with_junk s → line_values s = [].
Proof.
  destruct s as [|c s]; [done|]. intros (Hspace & Hdigit & Hminus & Hplus).
  apply line_values_stop. unfold extract_int64. cbn [skip_space].
  rewrite Hspace. cbn [read_sign]. rewrite !decide_False by done.
  cbn [starts_with_digit]. rewrite bool_decide_false; [done|].
  rewrite Hdigit. by intros [? [=]].
Qed.

(** What [write_loop] wrote is read back, whatever follows it, as long as
    that does not go on with a digit. *)
Lemma line_values_write_loop tokens : ∀ u,
  Forall in_int64 tokens → starts_with_digit u = false →
  line_values (write_loop tokens +:+ u) = tokens ++ line_values u.
Proof.
  induction tokens as [|t rest IH]; intros u Hrange Hu; [done|].
  inversion_clear Hrange as [|? ? Ht Hrest]. cbn [write_loop].
  rewrite !string_app_assoc.
  destruct rest as [|t' rest'].
  - change ("" +:+ write_loop [] +:+ u) with u.
    by rewrite (line_values_step _ _ _ (extract_int64_pretty t u Ht Hu)).
  - change (" " +:+ write_loop (t' :: rest') +:+ u)
      with (String " " (write_loop (t' :: rest') +:+ u)).
    rewrite (line_values_step _ _ _
               (extract_int64_pretty t (String " " _) Ht eq_refl)).
    rewrite line_values_space by done. cbn [app]. f_equal. by apply IH.
Qed.

(** ** Lines *)

Lemma pretty_N_char_digit d : is_Some (digit_value (pretty_N_char d)).
Proof. unfold pretty_N_char. repeat case_match; by eexists. Qed.

Lemma numeric_pretty_N_go x : ∀ s, numeric s → numeric (pretty_N_go x s).
Proof.
  induction (N.lt_wf_0 x) as [x _ IH]; intros s Hs.
  destruct (decide (x = 0%N)) as [->|Hx]; [by rewrite pretty_N_go_0|].
  rewrite pretty_N_go_step by lia. apply IH; [apply N.div_lt; lia|].
  split; [left; apply pretty_N_char_digit|done].
Qed.

Lemma numeric_pretty (t : Z) : numeric (pretty t).
Proof.
  unfold pretty, pretty_Z. destruct t as [|p|p].
  - split; [left; by eexists|done].
  - unfold pretty, pretty_positive, pretty, pretty_N.
    rewrite decide_False by done. by apply numeric_pretty_N_go.
  - unfold pretty, pretty_positive, pretty, pretty_N.
    rewrite decide_False by done.
    split; [by right|]. by apply numeric_pretty_N_go.
Qed.

Lemma numeric_no_newline s : numeric s → no_newline s.
Proof.
  induction s as [|c s IH]; [done|]. intros [Hc Hs]. split; [|by apply IH].
  destruct Hc as [Hd| ->]; [|done]. by apply digit_not_space_nor_sign.
Qed.

Lemma no_newline_app s1 s2 :
  no_newline s1 → no_newline s2 → no_newline (s1 +:+ s2).
Proof.
  induction s1 as [|c s1 IH]; [done|]. intros [Hc Hs1] Hs2.
  split; [done|]. by apply IH.
Qed.

Lemma no_newline_write_loop tokens : no_newline (write_loop tokens).
Proof.
  induction tokens as [|t rest IH]; [done|]. cbn [write_loop].
  apply no_newline_app; [apply numeric_no_newline, numeric_pretty|].
  apply no_newline_app; [by destruct rest|done].
Qed.

Lemma getlines_line s rest :
  no_newline s → getlines (s +:+ String newline rest) = s :: getlines rest.
Proof.
  induction s as [|c s IH]; intros Hs.
  - change ("" +:+ String newline rest) with (String newline rest).
    cbn [getlines]. by rewrite decide_True.
  - destruct Hs as [Hc Hs].
    change (String c s +:+ String newline rest)
      with (String c (s +:+ String newline rest)).
    cbn [getlines]. by rewrite decide_False, IH.
Qed.

Lemma getlines_write_lines lines :
  getlines (write_lines lines) = write_loop <$> lines.
Proof.
  induction lines as [|tokens rest IH]; [done|]. cbn [write_lines foldr].
  rewrite getlines_line by apply no_newline_write_loop.
  cbn [fmap list_fmap]. f_equal. exact IH.
Qed.

Lemma string_app_nil_r (s : string) : s +:+ "" = s.
Proof. induction s as [|c s IH]; [done|]. exact (f_equal (String c) IH). Qed.

Lemma line_values_write_loop_only tokens :
  Forall in_int64 tokens → line_values (write_loop tokens) = tokens.
Proof.
  intros Hrange. rewrite <- (string_app_nil_r (write_loop tokens)).
  rewrite line_values_write_loop by done. apply app_nil_r.
Qed.

Lemma values_of_write_lines lines :
  Forall (Forall in_int64) lines →
  concat (line_values <$> (write_loop <$> lines)) = concat lines.
Proof.
  induction 1 as [|tokens rest Htokens _ IH]; [done|].
  cbn [fmap list_fmap concat]. by rewrite line_values_write_loop_only, IH.
Qed.

Lemma extract_int64_in_range s value rest :
  extract_int64 s = Some (value, rest) → in_int64 value.
Proof.
  unfold extract_int64.
  destruct (read_sign (skip_space s)) as [negative s'].
  destruct (starts_with_digit s'); [|done].
  destruct (read_digits 0 s') as [magnitude rest'].
  destruct (_ && _) eqn:Hcheck; [|done]. intros [= <- _].
  apply andb_true_iff in Hcheck as [Hlo Hhi].
  split; by apply Z.leb_le.
Qed.

Lemma read_values_in_range fuel : ∀ s, Forall in_int64 (read_values fuel s).
Proof.
  induction fuel as [|fuel IH]; intros s; [constructor|]. cbn [read_values].
  destruct (extract_int64 s) as [[value rest]|] eqn:Hex; [|constructor].
  constructor; [by eapply extract_int64_in_range|apply IH].
Qed.

(** ** Writing and loading *)

(** X12: a token sequence written by [write_tokens] is read back by
    [load_tokens] as it was (the tokens being int64 values); only the empty
    sequence is not: its file holds one line feed, and loading it throws
    "Token file is empty". *)
Theorem write_then_load
    (tokens : list Z) (path : string) (files : gmap string string)
    (Hrange : Forall in_int64 tokens) :
  ∃ files',
    write_tokens tokens path files true = Returns files'
    ∧ load_tokens files' path
      = match tokens with
        | [] => Throws ("Token file is empty: " +:+ path)
        | _ :: _ => Returns tokens
        end.
Proof.
  eexists. split; [reflexivity|]. unfold load_tokens.
  rewrite lookup_insert_eq.
  rewrite (getlines_line _ "") by apply no_newline_write_loop.
  cbn [getlines fmap list_fmap concat].
  rewrite line_values_write_loop_only, app_nil_r by done.
  by destruct tokens.
Qed.

Lemma write_then_load_witness :
  ∃ files',
    write_tokens [ 15496; -1; 0; 9223372036854775807 ] "out.txt" ∅ true
    = Returns files'
    ∧ load_tokens files' "out.txt"
      = Returns [ 15496; -1; 0; 9223372036854775807 ].
Proof.
  apply (write_then_load [ 15496; -1; 0; 9223372036854775807 ] "out.txt" ∅).
  repeat constructor; unfold in_int64, INT64_MIN, INT64_MAX; lia.
Defined.

(** X13: when [load_tokens] returns, the file could be opened and the
    tokens are at least one and all int64 values; when it throws, either
    the file could not be opened ("Failed to open tokens file: " and the
    path) or it could and no token was read ("Token file is empty: " and
    the path). *)
Theorem load_tokens_outcomes (files : gmap string string) (path : string) :
  match load_tokens files path with
  | Returns tokens =>
      is_Some (files !! path) ∧ tokens ≠ [] ∧ Forall in_int64 tokens
  | Throws what =>
      (files !! path = None ∧ what = "Failed to open tokens file: " +:+ path)
      ∨ (is_Some (files !! path) ∧ what = "Token file is empty: " +:+ path)
  end.
Proof.
  unfold load_tokens. destruct (files !! path) as [content|]; [|by left].
  assert (Hrange : Forall in_int64 (concat (line_values <$> getlines content))).
  { apply Forall_concat, Forall_fmap, Forall_true. intros line.
    apply read_values_in_range. }
  destruct (concat (line_values <$> getlines content)); [by right|done].
Qed.

(** X14: how the tokens are spread over the lines of a file does not
    matter: a file of several lines, some of them possibly empty, loads as
    the tokens of all its lines in order. *)
Theorem load_tokens_lines
    (lines : list (list Z)) (path : string) (files : gmap string string)
    (Hrange : Forall (Forall in_int64) lines) :
  load_tokens (<[path := write_lines lines]> files) path
  = match concat lines with
    | [] => Throws ("Token file is empty: " +:+ path)
    | tokens => Returns tokens
    end.
Proof.
  unfold load_tokens.
  by rewrite lookup_insert_eq, getlines_write_lines, values_of_write_lines.
Qed.

Lemma load_tokens_lines_witness :
  load_tokens (<["in.txt" := write_lines [ [1; 2]; []; [-3] ]]> ∅) "in.txt"
  = Returns [ 1; 2; -3 ].
Proof.
  apply (load_tokens_lines [ [1; 2]; []; [-3] ] "in.txt" ∅).
  repeat constructor; unfold in_int64, INT64_MIN, INT64_MAX; lia.
Defined.

(** X15: a word that is not a number ends the reading of its line, and of
    its line only: the tokens before it on the line are kept, what follows
    it on the line is dropped without any error, and the next lines are
    read as usual. *)
Theorem load_tokens_junk
    (before : list Z) (junk : string) (lines : list (list Z))
    (path : string) (files : gmap string string)
    (Hbefore : Forall in_int64 before)
    (Hlines : Forall (Forall in_int64) lines)
    (Hjunk : starts_with_junk junk)
    (Hline : no_newline junk) :
  load_tokens
    (<[path := (write_loop before +:+ " " +:+ junk)
               +:+ String newline (write_lines lines)]> files) path
  = match before ++ concat lines with
    | [] => Throws ("Token file is empty: " +:+ path)
    | tokens => Returns tokens
    end.
Proof.
  unfold load_tokens. rewrite lookup_insert_eq, getlines_line.
  2: { apply no_newline_app; [apply no_newline_write_loop|].
       by apply (no_newline_app " "). }
  rewrite getlines_write_lines. cbn [fmap list_fmap concat].
  rewrite values_of_write_lines by done.
  rewrite line_values_write_loop by done.
  change (" " +:+ junk) with (String " " junk).
  by rewrite line_values_space, line_values_junk, app_nil_r.
Qed.

Lemma load_tokens_junk_witness :
  load_tokens
    (<["in.txt" := (write_loop [1; 2] +:+ " " +:+ "x 3")
                   +:+ String newline (write_lines [ [4] ])]> ∅) "in.txt"
  = Returns [ 1; 2; 4 ].
Proof.
  apply (load_tokens_junk [1; 2] "x 3" [ [4] ] "in.txt" ∅).
  - repeat constructor; unfold in_int64, INT64_MIN, INT64_MAX; lia.
  - repeat constructor; unfold in_int64, INT64_MIN, INT64_MAX; lia.
  - repeat split; discriminate.
  - repeat split; discriminate.
Defined.

(** * Properties of [format_shape] *)

Lemma numeric_span s1 : ∀ s2 u1 u2,
  numeric s1 → numeric s2 →
  starts_non_numeric u1 → starts_non_numeric u2 →
  s1 +:+ u1 = s2 +:+ u2 → s1 = s2 ∧ u1 = u2.
Proof.
  induction s1 as [|c1 s1 IH]; intros [|c2 s2] u1 u2 Hs1 Hs2 Hu1 Hu2 Heq.
  - done.
  - change ("" +:+ u1) with u1 in Heq.
    change (String c2 s2 +:+ u2) with (String c2 (s2 +:+ u2)) in Heq.
    subst u1. destruct Hs2 as [[[d Hd]| ->] _], Hu1 as [Hnone Hminus];
      congruence.
  - change ("" +:+ u2) with u2 in Heq.
    change (String c1 s1 +:+ u1) with (String c1 (s1 +:+ u1)) in Heq.
    subst u2. destruct Hs1 as [[[d Hd]| ->] _], Hu2 as [Hnone Hminus];
      congruence.
  - change (String c1 (s1 +:+ u1) = String c2 (s2 +:+ u2)) in Heq.
    injection Heq as -> Heq. destruct Hs1 as [_ Hs1], Hs2 as [_ Hs2].
    destruct (IH s2 u1 u2 Hs1 Hs2 Hu1 Hu2 Heq) as [-> ->]. done.
Qed.

Lemma format_dims_rest_non_numeric i dims :
  starts_non_numeric (format_dims (S i) dims +:+ "]").
Proof. destruct dims; split; done. Qed.

Lemma format_dims_rest_inj dims1 : ∀ dims2 i j,
  format_dims (S i) dims1 +:+ "]" = format_dims (S j) dims2 +:+ "]" →
  dims1 = dims2.
Proof.
  induction dims1 as [|d1 rest1 IH]; intros [|d2 rest2] i j Heq;
    [done|discriminate|discriminate|].
  cbn [format_dims] in Heq. rewrite !decide_True in Heq by done.
  rewrite !string_app_assoc in Heq.
  change ("x" +:+ ?s) with (String "x" s) in Heq. injection Heq as Heq.
  apply numeric_span in Heq as [Hd Hrest];
    [|apply numeric_pretty|apply numeric_pretty
     |apply format_dims_rest_non_numeric|apply format_dims_rest_non_numeric].
  apply (inj pretty) in Hd as ->. f_equal. by eapply IH.
Qed.

Lemma format_shape_head shapes :
  format_shape shapes
  = match default [] (head shapes) with
    | [] => ""
    | d :: rest => "[" +:+ (pretty d +:+ format_dims 1 rest) +:+ "]"
    end.
Proof. by destruct shapes as [|[|d rest] others]. Qed.

(** X16: the shape string tells the dimensions of the first input and
    nothing else: two shape lists give the same string exactly when their
    first shapes are equal, a missing first shape counting as the shape
    without dimensions (both give the empty string). *)
Theorem format_shape_first_shape (shapes1 shapes2 : list (list Z)) :
  format_shape shapes1 = format_shape shapes2
  ↔ default [] (head shapes1) = default [] (head shapes2).
Proof.
  rewrite !format_shape_head. split; [|by intros ->].
  destruct (default [] (head shapes1)) as [|d1 rest1],
           (default [] (head shapes2)) as [|d2 rest2];
    [done|discriminate|discriminate|].
  change ("[" +:+ ?s) with (String "[" s). intros [= Heq].
  rewrite !string_app_assoc in Heq.
  apply numeric_span in Heq as [Hd Hrest];
    [|apply numeric_pretty|apply numeric_pretty
     |apply format_dims_rest_non_numeric|apply format_dims_rest_non_numeric].
  apply (inj pretty) in Hd as ->. f_equal. by eapply format_dims_rest_inj.
Qed.

(** * Properties of the generation loop *)

Lemma generate_returns (module : list Z → outcome Z) (eos_token : Z) steps :
  ∀ prompt_tokens tokens,
  generate module steps eos_token prompt_tokens = Returns tokens →
  ∃ new,
    tokens = prompt_tokens ++ new
    ∧ (length new ≤ steps)%nat
    ∧ (∀ i next, new !! i = Some next →
         module (prompt_tokens ++ take i new) = Returns next)
    ∧ (length new = steps ∨ (0 ≤ eos_token ∧ last new = Some eos_token))
    ∧ (0 ≤ eos_token → ∀ i, new !! i = Some eos_token → S i = length new)
    ∧ (eos_token < 0 → length new = steps).
Proof.
  induction steps as [|steps IH]; intros prompt_tokens tokens; cbn [generate].
  { intros [= <-]. exists []. rewrite app_nil_r.
    split_and!; [done|done|by intros ? ? [=]|by left|by intros ? ? [=]|done]. }
  destruct (module prompt_tokens) as [next|what] eqn:Hnext; [|done].
  destruct ((0 <=? eos_token) && (next =? eos_token)) eqn:Hstop.
  - apply andb_true_iff in Hstop as [Hsign%Z.leb_le ->%Z.eqb_eq].
    intros [= <-]. exists [eos_token]. split_and!.
    + done.
    + cbn. lia.
    + intros [|i] x; [|done]. intros [= <-]. by rewrite app_nil_r.
    + by right.
    + intros _ [|i]; [done|]. by intros [=].
    + lia.
  - intros Hgen. destruct (IH _ _ Hgen) as (new & -> & Hlen & Hstep & Hend & Heos & Hneg).
    exists (next :: new). split_and!.
    + by rewrite <- app_assoc.
    + cbn. lia.
    + intros [|i] x Hx.
      * injection Hx as <-. by rewrite app_nil_r.
      * cbn [take]. rewrite cons_middle, app_assoc. by apply Hstep.
    + destruct Hend as [<-|[? Hlast]]; [by left|right].
      split; [done|]. destruct new; [done|]. by rewrite last_cons_cons.
    + intros Hsign [|i].
      * intros [= ->]. apply andb_false_iff in Hstop as [Hs|Hn].
        -- apply Z.leb_gt in Hs. lia.
        -- by apply Z.eqb_neq in Hn.
      * cbn. intros Hi. f_equal. by apply Heos.
    + intros Hsign. cbn. by rewrite Hneg.
Qed.

Lemma generate_throws (module : list Z → outcome Z) (eos_token : Z) steps :
  ∀ prompt_tokens what,
  generate module steps eos_token prompt_tokens = Throws what →
  ∃ new, (length new < steps)%nat ∧ module (prompt_tokens ++ new) = Throws what.
Proof.
  induction steps as [|steps IH]; intros prompt_tokens what; cbn [generate];
    [done|].
  destruct (module prompt_tokens) as [next|what'] eqn:Hnext.
  2: { intros [= <-]. exists []. rewrite app_nil_r. split; [cbn; lia|done]. }
  destruct (_ && _); [done|]. intros Hgen.
  destruct (IH _ _ Hgen) as (new & Hlen & Hthrow).
  exists (next :: new). split; [cbn; lia|]. by rewrite cons_middle, app_assoc.
Qed.

(** X17: when the generation loop returns, its result is the prompt
    followed by at most [steps] new tokens, each of them the answer of the
    module to all the tokens before it; when it throws, the module threw on
    the prompt followed by fewer than [steps] new tokens. *)
Theorem generate_outcome
    (module : list Z → outcome Z) (steps : nat) (eos_token : Z)
    (prompt_tokens : list Z) :
  match generate module steps eos_token prompt_tokens with
  | Returns tokens =>
      ∃ new,
        tokens = prompt_tokens ++ new
        ∧ (length new ≤ steps)%nat
        ∧ ∀ i next, new !! i = Some next →
            module (prompt_tokens ++ take i new) = Returns next
  | Throws what =>
      ∃ new,
        (length new < steps)%nat
        ∧ module (prompt_tokens ++ new) = Throws what
  end.
Proof.
  destruct (generate module steps eos_token prompt_tokens) as [tokens|what]
    eqn:Hgen.
  - destruct (generate_returns _ _ _ _ _ Hgen) as (new & ? & ? & ? & _).
    by exists new.
  - by apply (generate_throws module eos_token steps).
Qed.

(** X18: the loop stops early only on the end token: its result has
    exactly [steps] new tokens, or the end token is not negative and is the
    last new token; an end token that is not negative appears nowhere among
    the new tokens but in the last place, and a negative one never stops
    the loop. *)
Theorem generate_stops_on_eos
    (module : list Z → outcome Z) (steps : nat) (eos_token : Z)
    (prompt_tokens new : list Z)
    (Hgen : generate module steps eos_token prompt_tokens
            = Returns (prompt_tokens ++ new)) :
  (length new = steps ∨ (0 ≤ eos_token ∧ last new = Some eos_token))
  ∧ (0 ≤ eos_token → ∀ i, new !! i = Some eos_token → S i = length new)
  ∧ (eos_token < 0 → length new = steps).
Proof.
  destruct (generate_returns _ _ _ _ _ Hgen) as (new' & Heq & _ & _ & H).
  apply (inj (app prompt_tokens)) in Heq as ->. exact H.
Qed.

Lemma generate_stops_on_eos_witness :
  length [ 3; 4; 5 ] = 10%nat ∨ (0 ≤ 5 ∧ last [ 3; 4; 5 ] = Some 5).
Proof.
  exact (proj1 (generate_stops_on_eos
           (λ input, Returns (Z.of_nat (length input))) 10 5 [ 7; 8; 9 ]
           [ 3; 4; 5 ] eq_refl)).
Defined.

(** * Properties of [main] *)

Lemma load_tokens_returns files path tokens :
  load_tokens files path = Returns tokens →
  tokens ≠ [] ∧ Forall in_int64 tokens.
Proof.
  unfold load_tokens. destruct (files !! path) as [content|]; [|done].
  assert (Hrange : Forall in_int64 (concat (line_values <$> getlines content))).
  { apply Forall_concat, Forall_fmap, Forall_true. intros line.
    apply read_values_in_range. }
  destruct (concat (line_values <$> getlines content)) eqn:Hc; [done|].
  by intros [= <-].
Qed.

Lemma load_tokens_written tokens path (files : gmap string string) :
  tokens ≠ [] → Forall in_int64 tokens →
  load_tokens (<[path := write_loop tokens +:+ String newline ""]> files) path
  = Returns tokens.
Proof.
  intros Hne Hrange. unfold load_tokens. rewrite lookup_insert_eq.
  rewrite (getlines_line _ "") by apply no_newline_write_loop.
  cbn [getlines fmap list_fmap concat].
  rewrite line_values_write_loop_only, app_nil_r by done.
  by destruct tokens.
Qed.

(** X19: a run of [main] that does not end with exit code 0 leaves every
    file as it was and writes nothing to [std::cout], just one line to
    [std::cerr]; exit code 1 means fewer than three arguments and nothing
    else does; a run that ends with exit code 0 changes no file but the
    output file; and [std::terminate] is reached only through a fourth or
    fifth argument that [std::stoi] or [std::stoll] rejects. *)
Theorem main_exit (argv : list string) (world : World) :
  match main argv world with
  | Terminated =>
      ((5 ≤ length argv)%nat ∧ stoi (default "" (argv !! 4%nat)) = None)
      ∨ ((6 ≤ length argv)%nat ∧ stoll (default "" (argv !! 5%nat)) = None)
  | Exited code out err files_after =>
      (code = 1 ↔ (length argv < 4)%nat)
      ∧ (code = 0 ∨ code = 1 ∨ code = 2 ∨ code = 3)
      ∧ (code ≠ 0 →
         out = [] ∧ length err = 1%nat ∧ files_after = files world)
      ∧ (code = 0 →
         err = []
         ∧ ∀ path, path ≠ default "" (argv !! 3%nat) →
             files_after !! path = files world !! path)
  end.
Proof.
  unfold main. case_decide as Hargc.
  { split_and!; [done|auto|done|done]. }
  destruct (decide (5 ≤ length argv)%nat) as [H5|H5].
  - destruct (stoi (default "" (argv !! 4%nat))) as [max_new_tokens|] eqn:Hmax;
      [|by left].
    destruct (decide (6 ≤ length argv)%nat) as [H6|H6].
    + destruct (stoll (default "" (argv !! 5%nat))) as [eos_token|] eqn:Heos;
        [|by right].
      destruct (load_tokens _ _); [|split_and!; [split; [done|lia]|auto|done|done]].
      destruct (jit_load _ _); [|split_and!; [split; [done|lia]|auto|done|done]].
      destruct (generate _ _ _ _); [|split_and!; [split; [done|lia]|auto|done|done]].
      unfold write_tokens. destruct (can_create _ _);
        [|split_and!; [split; [done|lia]|auto|done|done]].
      split_and!; [split; [done|lia]|auto|done|].
      intros _. split; [done|]. intros path Hpath. by rewrite lookup_insert_ne.
    + destruct (load_tokens _ _); [|split_and!; [split; [done|lia]|auto|done|done]].
      destruct (jit_load _ _); [|split_and!; [split; [done|lia]|auto|done|done]].
      destruct (generate _ _ _ _); [|split_and!; [split; [done|lia]|auto|done|done]].
      unfold write_tokens. destruct (can_create _ _);
        [|split_and!; [split; [done|lia]|auto|done|done]].
      split_and!; [split; [done|lia]|auto|done|].
      intros _. split; [done|]. intros path Hpath. by rewrite lookup_insert_ne.
  - rewrite decide_False by lia.
    destruct (load_tokens _ _); [|split_and!; [split; [done|lia]|auto|done|done]].
    destruct (jit_load _ _); [|split_and!; [split; [done|lia]|auto|done|done]].
    destruct (generate _ _ _ _); [|split_and!; [split; [done|lia]|auto|done|done]].
    unfold write_tokens. destruct (can_create _ _);
      [|split_and!; [split; [done|lia]|auto|done|done]].
    split_and!; [split; [done|lia]|auto|done|].
    intros _. split; [done|]. intros path Hpath. by rewrite lookup_insert_ne.
Qed.

Lemma main_success argv world out err files_after :
  main argv world = Exited 0 out err files_after →
  ∃ max_new_tokens eos_token prompt module tokens,
    (if decide (5 ≤ length argv)%nat
     then stoi (default "" (argv !! 4%nat)) = Some max_new_tokens
     else max_new_tokens = 64)
    ∧ (if decide (6 ≤ length argv)%nat
       then stoll (default "" (argv !! 5%nat)) = Some eos_token
       else eos_token = -1)
    ∧ load_tokens (files world) (default "" (argv !! 2%nat)) = Returns prompt
    ∧ jit_load world (default "" (argv !! 1%nat)) = Returns module
    ∧ generate module (Z.to_nat max_new_tokens) eos_token prompt
      = Returns tokens
    ∧ files_after
      = <[default "" (argv !! 3%nat)
          := write_loop tokens +:+ String newline ""]> (files world)
    ∧ out = Text ("Generated " +:+ pretty (length tokens) +:+ " tokens.")
            :: report_profile (profiler_events world).
Proof.
  unfold main. case_decide as Hargc; [done|].
  destruct (if decide (5 ≤ length argv)%nat then _ else _)
    as [max_new_tokens|] eqn:Hmax; [|done].
  destruct (if decide (6 ≤ length argv)%nat then _ else _)
    as [eos_token|] eqn:Heos; [|done].
  destruct (load_tokens _ _) as [prompt|] eqn:Hload; [|done].
  destruct (jit_load _ _) as [module|] eqn:Hmodule; [|done].
  destruct (generate _ _ _ _) as [tokens|] eqn:Hgen; [|done].
  unfold write_tokens. destruct (can_create _ _); [|done].
  intros [= <- <- <-].
  exists max_new_tokens, eos_token, prompt, module, tokens.
  split_and!; try done.
  - destruct (decide (5 ≤ length argv)%nat); [done|]. by injection Hmax.
  - destruct (decide (6 ≤ length argv)%nat); [done|]. by injection Heos.
Qed.

Lemma generated_in_int64 (module : list Z → outcome Z) steps eos_token
    prompt tokens :
  (∀ input next, module input = Returns next → in_int64 next) →
  Forall in_int64 prompt →
  generate module steps eos_token prompt = Returns tokens →
  Forall in_int64 tokens.
Proof.
  intros Hmodule Hprompt Hgen.
  destruct (generate_returns _ _ _ _ _ Hgen) as (new & -> & _ & Hstep & _).
  apply Forall_app. split; [done|]. apply Forall_lookup.
  intros i next Hi. by eapply Hmodule, Hstep.
Qed.

(** X20: when [main] ends with exit code 0 (the module giving int64
    tokens), the output file can be loaded by [load_tokens] again and holds
    the tokens of the input file followed by the new tokens, at most
    [max_new_tokens] of them; [std::cout] starts with "Generated N tokens.",
    N being the number of all these tokens, and goes on with the report
    of the profile. *)
Theorem main_output_reloads
    (argv : list string) (world : World)
    (out : list Line) (err : list string) (files_after : gmap string string)
    (Hint64 : ∀ path module input next,
        jit_load world path = Returns module →
        module input = Returns next → in_int64 next)
    (Hrun : main argv world = Exited 0 out err files_after) :
  ∃ prompt new,
    load_tokens (files world) (default "" (argv !! 2%nat)) = Returns prompt
    ∧ load_tokens files_after (default "" (argv !! 3%nat))
      = Returns (prompt ++ new)
    ∧ ((5 ≤ length argv)%nat →
       ∃ max_new_tokens,
         stoi (default "" (argv !! 4%nat)) = Some max_new_tokens
         ∧ Z.of_nat (length new) ≤ Z.max 0 max_new_tokens)
    ∧ out = Text ("Generated " +:+ pretty (length (prompt ++ new))
                  +:+ " tokens.")
            :: report_profile (profiler_events world).
Proof.
  apply main_success in Hrun
    as (max_new_tokens & eos_token & prompt & module & tokens
        & Hmax & _ & Hload & Hmodule & Hgen & -> & ->).
  destruct (load_tokens_returns _ _ _ Hload) as [Hne Hprompt].
  pose proof (generated_in_int64 module _ _ _ _
                (λ input next, Hint64 _ module input next Hmodule)
                Hprompt Hgen) as Hrange.
  destruct (generate_returns _ _ _ _ _ Hgen) as (new & -> & Hlen & _).
  exists prompt, new. split_and!; [done| | |done].
  - apply load_tokens_written; [|done]. by destruct prompt.
  - intros H5. rewrite decide_True in Hmax by done.
    exists max_new_tokens. split; [done|]. lia.
Qed.

Lemma demo_world_int64 path module input next :
  jit_load demo_world path = Returns module →
  module input = Returns next → in_int64 next.
Proof.
  intros [= <-] [= <-]. unfold in_int64, INT64_MIN, INT64_MAX. lia.
Qed.

Lemma main_output_reloads_witness :
  ∃ prompt new,
    load_tokens (files demo_world) "in.txt" = Returns prompt
    ∧ load_tokens
        (<["out.txt" := write_loop [5; 6; 7; 7] +:+ String newline ""]>
           (files demo_world)) "out.txt"
      = Returns (prompt ++ new).
Proof.
  assert (Hrun :
    main [ "prog"; "model.pt"; "in.txt"; "out.txt"; "2" ] demo_world
    = Exited 0
        [ Text "Generated 4 tokens.";
          Text "Profiler did not capture any events." ]
        []
        (<["out.txt" := write_loop [5; 6; 7; 7] +:+ String newline ""]>
           (files demo_world))) by (vm_compute; reflexivity).
  destruct (main_output_reloads _ _ _ _ _ demo_world_int64 Hrun)
    as (prompt & new & Hin & Hout & _).
  exists prompt, new. split; [exact Hin|exact Hout].
Defined.

(** X21: without a fourth and a fifth argument [main] generates 64 tokens
    and never stops early: when it ends with exit code 0 (the module
    giving int64 tokens), the output file holds the tokens of the input
    file followed by exactly 64 new tokens, each the answer of the loaded
    module to all the tokens before it. *)
Theorem main_default_arguments
    (program model_path input_path output_path : string) (world : World)
    (out : list Line) (err : list string) (files_after : gmap string string)
    (Hint64 : ∀ path module input next,
        jit_load world path = Returns module →
        module input = Returns next → in_int64 next)
    (Hrun : main [ program; model_path; input_path; output_path ] world
            = Exited 0 out err files_after) :
  ∃ prompt new module,
    load_tokens (files world) input_path = Returns prompt
    ∧ jit_load world model_path = Returns module
    ∧ load_tokens files_after output_path = Returns (prompt ++ new)
    ∧ length new = 64%nat
    ∧ ∀ i next, new !! i = Some next →
        module (prompt ++ take i new) = Returns next.
Proof.
  apply main_success in Hrun
    as (max_new_tokens & eos_token & prompt & module & tokens
        & Hmax & Heos & Hload & Hmodule & Hgen & -> & ->).
  rewrite decide_False in Hmax by (cbn; lia).
  rewrite decide_False in Heos by (cbn; lia). subst max_new_tokens eos_token.
  change (load_tokens (files world) input_path = Returns prompt) in Hload.
  change (jit_load world model_path = Returns module) in Hmodule.
  change (default "" ([program; model_path; input_path; output_path] !! 3%nat))
    with output_path.
  destruct (load_tokens_returns _ _ _ Hload) as [Hne Hprompt].
  pose proof (generated_in_int64 module _ _ _ _
                (λ input next, Hint64 _ module input next Hmodule)
                Hprompt Hgen) as Hrange.
  destruct (generate_returns _ _ _ _ _ Hgen)
    as (new & -> & _ & Hstep & _ & _ & Hlen).
  exists prompt, new, module. split_and!; [done|done| | |done].
  - apply load_tokens_written; [|done]. by destruct prompt.
  - rewrite Hlen by lia. reflexivity.
Qed.

Lemma main_default_arguments_witness :
  ∃ prompt new module,
    load_tokens (files demo_world) "in.txt" = Returns prompt
    ∧ jit_load demo_world "model.pt" = Returns module
    ∧ load_tokens
        (<["out.txt" := write_loop ([5; 6] ++ replicate 64 7)
                        +:+ String newline ""]> (files demo_world)) "out.txt"
      = Returns (prompt ++ new)
    ∧ length new = 64%nat.
Proof.
  assert (Hrun :
    main [ "prog"; "model.pt"; "in.txt"; "out.txt" ] demo_world
    = Exited 0
        [ Text "Generated 66 tokens.";
          Text "Profiler did not capture any events." ]
        []
        (<["out.txt" := write_loop ([5; 6] ++ replicate 64 7)
                        +:+ String newline ""]> (files demo_world)))
    by (vm_compute; reflexivity).
  destruct (main_default_arguments _ _ _ _ _ _ _ _ demo_world_int64 Hrun)
    as (prompt & new & module & Hin & Hmodule & Hout & Hlen & _).
  exists prompt, new, module. split_and!; [exact Hin|exact Hmodule|exact Hout|exact Hlen].
Defined.

(** * The order of the threads *)



